(** * v8-vis: the event-loop visualisation page, embedded in Rocq

    Source: [src/routes/+page.svelte] (the page script and its three
    buttons) and [src/routes/types.ts].

    The page keeps eight script variables (four item containers, the output
    log, the run status, the id counter and the array of scheduled events)
    and talks to the browser through [setTimeout], [clearTimeout] and
    [Date.now].  The embedding threads one [World] value through every
    function: the eight script variables plus the part of the browser the
    script can observe (the table of live timers, the clock).

    Numbers: every number the script handles is an integer (literal delays,
    [Date.now()] readings and their differences, the id counter), so JS
    numbers are modelled by [Z]. A JS number counts exactly only up to
    2^53: the statements about ids that depend on the counter never
    repeating carry that bound ([getNextId_exact], [jsAdd_stuck]).
    [Date.now()] is the wall clock: it advances ([Tick]) and may be set
    back ([ClockBack]). *)

From stdpp Require Import gmap strings list.
From Stdlib Require Import ZArith Lia.

Local Open Scope Z_scope.

(* ===================================================================== *)
(** ** Data model ([types.ts])                                            *)
(* ===================================================================== *)

Inductive Status := idle | running | paused | complete.

Inductive EventType :=
  | ty_fetch | ty_setTimeout | ty_DOM | ty_promise
  | ty_requestAnimationFrame | ty_database | ty_imageLoad.

#[global] Instance Status_eq_dec : EqDecision Status.
Proof. solve_decision. Defined.

#[global] Instance EventType_eq_dec : EqDecision EventType.
Proof. solve_decision. Defined.

(** [QueueItem].  The declared type makes the three descriptive fields
    mandatory, but [addToCallStack] builds its entry as
    [{ ...item, id: getNextId() }], and the two queue readers hand it
    [queue[0]], which is [undefined] on an empty array: the entry then has
    an [id] and nothing else.  An absent property is [None]. *)
Record QueueItem := mkQueueItem {
  id : Z;
  text : option string;
  type : option EventType;
  duration : option Z
}.

#[global] Instance QueueItem_eq_dec : EqDecision QueueItem.
Proof. solve_decision. Defined.

(** The closures handed to [scheduleEvent] by [simulateEventLoop], one
    constructor per closure, in source order (the comments of the source
    number the log lines they write). *)
Inductive Callback :=
  | cb_startImageLoad        (* log line 2 *)
  | cb_imageToWebAPI         (* log line 3 *)
  | cb_startDbQuery          (* log line 4 *)
  | cb_dbToWebAPI            (* log line 5 *)
  | cb_createPromise         (* log line 6, schedules the next one *)
  | cb_promiseToMicrotask    (* log line 7 *)
  | cb_dbComplete            (* log line 8 *)
  | cb_imageComplete         (* log line 9 *)
  | cb_processMicrotask      (* log line 10 *)
  | cb_processDbCallback     (* log line 11 *)
  | cb_processImageCallback  (* log line 12 *)
  | cb_complete.             (* log line 13 *)

#[global] Instance Callback_eq_dec : EqDecision Callback.
Proof. solve_decision. Defined.

(** Timer handles.  The browser hands out positive integers, so a handle
    is always truthy and [if (event.timer)] tests exactly "not null". *)
Abbreviation handle := positive.

(** [ScheduledEvent].  The script mutates these objects in place and
    compares them by identity ([e !== event]); [ref] is that identity. *)
Record ScheduledEvent := mkScheduledEvent {
  ref : nat;
  callback : Callback;
  remainingDelay : Z;
  timer : option handle;
  startTime : option Z
}.

#[global] Instance ScheduledEvent_eq_dec : EqDecision ScheduledEvent.
Proof. solve_decision. Defined.

(** A live browser timer: the closure built around [event] by
    [scheduleEvent] or [resumeExecution], and the delay it was armed with. *)
Record HostTimer := mkHostTimer {
  target : nat;        (* the [event] object the closure captured *)
  fires : Callback;    (* [callback] / [event.callback] *)
  armedFor : Z         (* second argument of [setTimeout] *)
}.

Record World := mkWorld {
  (* script variables, lines 6-15 *)
  callStack : list QueueItem;
  webAPI : list QueueItem;
  callbackQueue : list QueueItem;
  microTaskQueue : list QueueItem;
  output : list string;
  status : Status;
  uniqueId : Z;
  scheduledEvents : list ScheduledEvent;
  (* browser *)
  hostTimers : gmap positive HostTimer;
  nextHandle : positive;
  nextRef : nat;
  clock : Z
}.

Definition set_callStack (v : list QueueItem) (w : World) : World :=
  mkWorld v (webAPI w) (callbackQueue w) (microTaskQueue w) (output w)
    (status w) (uniqueId w) (scheduledEvents w)
    (hostTimers w) (nextHandle w) (nextRef w) (clock w).

Definition set_webAPI (v : list QueueItem) (w : World) : World :=
  mkWorld (callStack w) v (callbackQueue w) (microTaskQueue w) (output w)
    (status w) (uniqueId w) (scheduledEvents w)
    (hostTimers w) (nextHandle w) (nextRef w) (clock w).

Definition set_callbackQueue (v : list QueueItem) (w : World) : World :=
  mkWorld (callStack w) (webAPI w) v (microTaskQueue w) (output w)
    (status w) (uniqueId w) (scheduledEvents w)
    (hostTimers w) (nextHandle w) (nextRef w) (clock w).

Definition set_microTaskQueue (v : list QueueItem) (w : World) : World :=
  mkWorld (callStack w) (webAPI w) (callbackQueue w) v (output w)
    (status w) (uniqueId w) (scheduledEvents w)
    (hostTimers w) (nextHandle w) (nextRef w) (clock w).

Definition set_output (v : list string) (w : World) : World :=
  mkWorld (callStack w) (webAPI w) (callbackQueue w) (microTaskQueue w) v
    (status w) (uniqueId w) (scheduledEvents w)
    (hostTimers w) (nextHandle w) (nextRef w) (clock w).

Definition set_status (v : Status) (w : World) : World :=
  mkWorld (callStack w) (webAPI w) (callbackQueue w) (microTaskQueue w)
    (output w) v (uniqueId w) (scheduledEvents w)
    (hostTimers w) (nextHandle w) (nextRef w) (clock w).

Definition set_uniqueId (v : Z) (w : World) : World :=
  mkWorld (callStack w) (webAPI w) (callbackQueue w) (microTaskQueue w)
    (output w) (status w) v (scheduledEvents w)
    (hostTimers w) (nextHandle w) (nextRef w) (clock w).

Definition set_scheduledEvents (v : list ScheduledEvent) (w : World) : World :=
  mkWorld (callStack w) (webAPI w) (callbackQueue w) (microTaskQueue w)
    (output w) (status w) (uniqueId w) v
    (hostTimers w) (nextHandle w) (nextRef w) (clock w).

Definition set_hostTimers (v : gmap positive HostTimer) (w : World) : World :=
  mkWorld (callStack w) (webAPI w) (callbackQueue w) (microTaskQueue w)
    (output w) (status w) (uniqueId w) (scheduledEvents w)
    v (nextHandle w) (nextRef w) (clock w).

Definition set_nextHandle (v : positive) (w : World) : World :=
  mkWorld (callStack w) (webAPI w) (callbackQueue w) (microTaskQueue w)
    (output w) (status w) (uniqueId w) (scheduledEvents w)
    (hostTimers w) v (nextRef w) (clock w).

Definition set_nextRef (v : nat) (w : World) : World :=
  mkWorld (callStack w) (webAPI w) (callbackQueue w) (microTaskQueue w)
    (output w) (status w) (uniqueId w) (scheduledEvents w)
    (hostTimers w) (nextHandle w) v (clock w).

Definition set_clock (v : Z) (w : World) : World :=
  mkWorld (callStack w) (webAPI w) (callbackQueue w) (microTaskQueue w)
    (output w) (status w) (uniqueId w) (scheduledEvents w)
    (hostTimers w) (nextHandle w) (nextRef w) v.

(** The four item containers, as one tuple (for frame statements). *)
Definition containers (w : World) :
    list QueueItem * list QueueItem * list QueueItem * list QueueItem :=
  (callStack w, webAPI w, microTaskQueue w, callbackQueue w).

(* ===================================================================== *)
(** ** Browser primitives                                                 *)
(* ===================================================================== *)

(** [Date.now()] *)
Definition dateNow (w : World) : Z := clock w.

(** [setTimeout(closure, delay)]: a fresh handle, recorded as live. *)
Definition hostSetTimeout (t : HostTimer) (w : World) : handle * World :=
  let h := nextHandle w in
  (h, set_nextHandle (Pos.succ h) (set_hostTimers (<[h := t]> (hostTimers w)) w)).

(** [clearTimeout(h)]: the timer, if still live, will never fire. *)
Definition clearTimeout (h : handle) (w : World) : World :=
  set_hostTimers (delete h (hostTimers w)) w.

(** JS truthiness of an optional number ([if (event.startTime)]). *)
Definition truthy (n : option Z) : bool :=
  match n with
  | Some v => negb (v =? 0)
  | None => false
  end.

(* ===================================================================== *)
(** ** The page script                                                    *)
(* ===================================================================== *)

(** [getNextId], line 17: [return uniqueId++]. The increment is the exact
    one, which is what the page computes while the counter is below 2^53
    ([getNextId_exact]). *)
Definition getNextId (w : World) : Z * World :=
  (uniqueId w, set_uniqueId (uniqueId w + 1) w).

(** [output = [...output, line]] *)
Definition log (line : string) (w : World) : World :=
  set_output (output w ++ [line]) w.

(** [{ ...item, id: n }] for an [item] that may be [undefined]. *)
Definition spreadWithId (item : option QueueItem) (n : Z) : QueueItem :=
  match item with
  | Some q => mkQueueItem n (text q) (type q) (duration q)
  | None => mkQueueItem n None None None
  end.

(** [addToCallStack], line 48. *)
Definition addToCallStack (item : option QueueItem) (w : World) : World :=
  let '(n, w1) := getNextId w in
  set_callStack (callStack w1 ++ [spreadWithId item n]) w1.

(** [removeFromCallStack], line 52:
    [callStack.filter(item => item.text !== text)]. *)
Definition removeFromCallStack (txt : string) (w : World) : World :=
  set_callStack (filter (λ item, text item ≠ Some txt) (callStack w)) w.

(** The object literal [{ id: getNextId(), text, type, duration }]. *)
Definition newItem (txt : string) (ty : EventType) (dur : Z) (w : World)
    : QueueItem * World :=
  let '(n, w1) := getNextId w in
  (mkQueueItem n (Some txt) (Some ty) (Some dur), w1).

(** [scheduleEvent], line 56. *)
Definition scheduleEvent (cb : Callback) (delay : Z) (w : World) : World :=
  let r := nextRef w in
  let now := dateNow w in
  let '(h, w1) := hostSetTimeout (mkHostTimer r cb delay) w in
  let event := mkScheduledEvent r cb delay (Some h) (Some now) in
  set_scheduledEvents (scheduledEvents w1 ++ [event]) (set_nextRef (S r) w1).

(** One iteration of the [forEach] in [reset], on the browser side. *)
Definition cancelEvent (w : World) (e : ScheduledEvent) : World :=
  match timer e with
  | Some h => clearTimeout h w
  | None => w
  end.

(** [reset], line 21. *)
Definition reset (w : World) : World :=
  let w := set_status idle w in
  let w := set_callStack [] w in
  let w := set_webAPI [] w in
  let w := set_callbackQueue [] w in
  let w := set_microTaskQueue [] w in
  let w := set_output [] w in
  let w := foldl cancelEvent w (scheduledEvents w) in
  set_scheduledEvents [] w.

(** The object literal [colors] of [getEventColor], read at [type]; reading
    it at [undefined] finds nothing. *)
Definition colors (ty : option EventType) : option string :=
  match ty with
  | Some ty_fetch => Some "bg-blue-100"
  | Some ty_setTimeout => Some "bg-green-100"
  | Some ty_DOM => Some "bg-yellow-100"
  | Some ty_promise => Some "bg-purple-100"
  | Some ty_requestAnimationFrame => Some "bg-pink-100"
  | Some ty_database => Some "bg-orange-100"
  | Some ty_imageLoad => Some "bg-teal-100"
  | None => None
  end.

(** [a || b] on an optional string: [undefined] and the empty string are
    falsy. *)
Definition orElse (a : option string) (b : string) : string :=
  match a with
  | Some s => if decide (s = "") then b else s
  | None => b
  end.

(** [getEventColor], line 35, as the template calls it:
    [getEventColor(item.type)]. *)
Definition getEventColor (ty : option EventType) : string :=
  orElse (colors ty) "bg-white".

(** What the body of the [forEach] in [pauseExecution] does to the event
    object. *)
Definition pauseEvent (now : Z) (e : ScheduledEvent) : ScheduledEvent :=
  match timer e with
  | Some _ =>
      mkScheduledEvent (ref e) (callback e)
        (if truthy (startTime e)
         then Z.max 0 (remainingDelay e - (now - default 0 (startTime e)))
         else remainingDelay e)
        None (startTime e)
  | None => e
  end.

(** One iteration of the [forEach] in [pauseExecution]: the world so far
    and the events already visited, then the event being visited. *)
Definition pauseStep (acc : World * list ScheduledEvent) (e : ScheduledEvent)
    : World * list ScheduledEvent :=
  let '(w, seen) := acc in
  (cancelEvent w e, seen ++ [pauseEvent (dateNow w) e]).

(** [pauseExecution], line 71. *)
Definition pauseExecution (w : World) : World :=
  if decide (status w ≠ running) then w else
  let w := set_status paused w in
  let '(w, evs) := foldl pauseStep (w, []) (scheduledEvents w) in
  let w := set_scheduledEvents evs w in
  log "⏸️ Execution paused" w.

(** One iteration of the [forEach] in [resumeExecution]: the world so far
    and the events already visited, then the event being visited. *)
Definition resumeEvent (acc : World * list ScheduledEvent) (e : ScheduledEvent)
    : World * list ScheduledEvent :=
  let '(w, seen) := acc in
  match timer e with
  | None =>
      let '(h, w1) :=
        hostSetTimeout (mkHostTimer (ref e) (callback e) (remainingDelay e)) w in
      (w1, seen ++ [mkScheduledEvent (ref e) (callback e) (remainingDelay e)
                      (Some h) (Some (dateNow w1))])
  | Some _ => (w, seen ++ [e])
  end.

(** [resumeExecution], line 91. *)
Definition resumeExecution (w : World) : World :=
  if decide (status w ≠ paused) then w else
  let w := set_status running w in
  let '(w, evs) := foldl resumeEvent (w, []) (scheduledEvents w) in
  let w := set_scheduledEvents evs w in
  log "▶️ Execution resumed" w.

(** [callStack = [...callStack, fresh item]] with the item literal built
    first, as in [addToCallStack({ id: getNextId(), ... })]. *)
Definition pushCall (txt : string) (ty : EventType) (dur : Z) (w : World) : World :=
  let '(item, w1) := newItem txt ty dur w in
  addToCallStack (Some item) w1.

Definition pushWebAPI (txt : string) (ty : EventType) (dur : Z) (w : World) : World :=
  let '(item, w1) := newItem txt ty dur w in
  set_webAPI (webAPI w1 ++ [item]) w1.

Definition pushMicrotask (txt : string) (ty : EventType) (dur : Z) (w : World) : World :=
  let '(item, w1) := newItem txt ty dur w in
  set_microTaskQueue (microTaskQueue w1 ++ [item]) w1.

Definition pushCallback (txt : string) (ty : EventType) (dur : Z) (w : World) : World :=
  let '(item, w1) := newItem txt ty dur w in
  set_callbackQueue (callbackQueue w1 ++ [item]) w1.

(** [webAPI = webAPI.filter(item => item.type !== ty)] *)
Definition removeWebAPIByType (ty : EventType) (w : World) : World :=
  set_webAPI (filter (λ item, type item ≠ Some ty) (webAPI w)) w.

(** Lines 172-173: [const microtask = microTaskQueue[0]; microTaskQueue = []]. *)
Definition drainMicrotasks (w : World) : option QueueItem * World :=
  (head (microTaskQueue w), set_microTaskQueue [] w).

(** Lines 180-181 and 188-189:
    [const cb = callbackQueue[0]; callbackQueue = callbackQueue.slice(1)]. *)
Definition dequeueOneMacrotask (w : World) : option QueueItem * World :=
  (head (callbackQueue w), set_callbackQueue (tail (callbackQueue w)) w).

(** The bodies of the closures of [simulateEventLoop], lines 119-199. *)
Definition runCallback (cb : Callback) (w : World) : World :=
  match cb with
  | cb_startImageLoad =>
      log "2. Starting image load (3000ms)"
        (pushCall "loadImage()" ty_imageLoad 3000 w)
  | cb_imageToWebAPI =>
      log "3. Image load moved to Web API"
        (pushWebAPI "Loading large image" ty_imageLoad 3000
           (removeFromCallStack "loadImage()" w))
  | cb_startDbQuery =>
      log "4. Starting database query (2500ms)"
        (pushCall "dbQuery()" ty_database 2500 w)
  | cb_dbToWebAPI =>
      log "5. Database query moved to Web API"
        (pushWebAPI "Database query running" ty_database 2500
           (removeFromCallStack "dbQuery()" w))
  | cb_createPromise =>
      scheduleEvent cb_promiseToMicrotask 200
        (log "6. Creating Promise"
           (pushCall "Promise.resolve()" ty_promise 0 w))
  | cb_promiseToMicrotask =>
      log "7. Promise moved to microtask queue"
        (pushMicrotask "Promise callback" ty_promise 0 w)
  | cb_dbComplete =>
      log "8. Database query complete, callback queued"
        (pushCallback "Database callback" ty_database 0
           (removeWebAPIByType ty_database w))
  | cb_imageComplete =>
      log "9. Image load complete, callback queued"
        (pushCallback "Image load callback" ty_imageLoad 0
           (removeWebAPIByType ty_imageLoad w))
  | cb_processMicrotask =>
      let '(microtask, w1) := drainMicrotasks w in
      log "10. Processing Promise callback" (addToCallStack microtask w1)
  | cb_processDbCallback =>
      let '(dbCallback, w1) := dequeueOneMacrotask w in
      log "11. Processing database callback" (addToCallStack dbCallback w1)
  | cb_processImageCallback =>
      let '(imageCallback, w1) := dequeueOneMacrotask w in
      log "12. Processing image callback" (addToCallStack imageCallback w1)
  | cb_complete =>
      log "13. Execution complete" (set_status complete (set_callStack [] w))
  end.

(** The program of [simulateEventLoop]: its top-level [scheduleEvent]
    calls, in source order. *)
Definition program : list (Callback * Z) :=
  [ (cb_startImageLoad, 500); (cb_imageToWebAPI, 1000);
    (cb_startDbQuery, 1500); (cb_dbToWebAPI, 2000);
    (cb_createPromise, 2500); (cb_dbComplete, 4500);
    (cb_imageComplete, 5000); (cb_processMicrotask, 5500);
    (cb_processDbCallback, 6000); (cb_processImageCallback, 6500);
    (cb_complete, 7000) ].

(** [simulateEventLoop], line 110. *)
Definition simulateEventLoop (w : World) : World :=
  let w := reset w in
  let w := set_status running w in
  let w := pushCall "main()" ty_DOM 0 w in
  let w := log "1. Starting main execution" w in
  foldl (λ w p, scheduleEvent p.1 p.2 w) w program.

(* ===================================================================== *)
(** ** What can happen to the page                                        *)
(* ===================================================================== *)

(** The browser delivers a click to a button only when the button is not
    disabled (template, lines 207-226); it may run the closure of any live
    timer (which one, and when, is its choice: the model does not commit to
    a firing order); time passes; and, [Date.now()] being the wall clock,
    the time it reads may be set back. *)
Inductive Event :=
  | ClickRun
  | ClickPauseResume
  | ClickReset
  | Fire (h : handle)
  | Tick (d : N)
  | ClockBack (d : N).

(** [disabled={status === 'running' || status === 'paused'}] *)
Definition runDisabled (w : World) : bool :=
  bool_decide (status w = running) || bool_decide (status w = paused).

(** [disabled={status === 'idle' || status === 'complete'}] *)
Definition pauseResumeDisabled (w : World) : bool :=
  bool_decide (status w = idle) || bool_decide (status w = complete).

(** The closure armed by [scheduleEvent] and [resumeExecution]:
    [callback(); scheduledEvents = scheduledEvents.filter(e => e !== event)].
    A timer that fires is no longer live. *)
Definition fire (h : handle) (w : World) : World :=
  match hostTimers w !! h with
  | None => w
  | Some t =>
      let w := clearTimeout h w in
      let w := runCallback (fires t) w in
      set_scheduledEvents (filter (λ e, ref e ≠ target t) (scheduledEvents w)) w
  end.

Definition exec (w : World) (ev : Event) : World :=
  match ev with
  | ClickRun => if runDisabled w then w else simulateEventLoop w
  | ClickPauseResume =>
      if pauseResumeDisabled w then w
      else if decide (status w = paused) then resumeExecution w
      else pauseExecution w
  | ClickReset => reset w
  | Fire h => fire h w
  | Tick d => set_clock (clock w + Z.of_N d) w
  | ClockBack d => set_clock (clock w - Z.of_N d) w
  end.

(** The page as loaded at wall-clock time [t0] (lines 6-15). *)
Definition initial (t0 : Z) : World :=
  mkWorld [] [] [] [] [] idle 0 [] ∅ 1%positive 0%nat t0.

Definition run (w : World) (evs : list Event) : World := foldl exec w evs.

Definition reachable (w : World) : Prop :=
  ∃ t0 evs, w = run (initial t0) evs.

(* ===================================================================== *)
(** ** Reference readings used to compare the code with its description   *)
(* ===================================================================== *)

(** Removal of the first entry labelled [txt] only: the reading under which
    a pop by text takes away at most one entry. *)
Fixpoint spec_removeFirst (txt : string) (l : list QueueItem) : list QueueItem :=
  match l with
  | [] => []
  | item :: rest =>
      if decide (text item = Some txt) then rest
      else item :: spec_removeFirst txt rest
  end.

(** [n] successive dequeues, collecting what each one read. *)
Fixpoint dequeueMany (n : nat) (w : World) : list (option QueueItem) * World :=
  match n with
  | O => ([], w)
  | S n' =>
      let '(x, w1) := dequeueOneMacrotask w in
      let '(xs, w2) := dequeueMany n' w1 in
      (x :: xs, w2)
  end.

(** Sample items and worlds for the concrete checks below. *)
Module Samples.
Definition frameA : QueueItem := mkQueueItem 10 (Some "f()") (Some ty_DOM) (Some 0).
Definition frameB : QueueItem := mkQueueItem 11 (Some "f()") (Some ty_DOM) (Some 0).
Definition frameG : QueueItem := mkQueueItem 12 (Some "g()") (Some ty_DOM) (Some 0).
Definition taskA : QueueItem := mkQueueItem 20 (Some "A") (Some ty_promise) (Some 0).
Definition taskB : QueueItem := mkQueueItem 21 (Some "B") (Some ty_promise) (Some 0).

  (** A page right after a click on Run at wall-clock time 1000. *)
Definition started : World := run (initial 1000) [ClickRun].

Definition twoFrames : World := set_callStack [frameA; frameG; frameB] started.
Definition twoMicrotasks : World := set_microTaskQueue [taskA; taskB] started.
Definition oneMicrotask : World := set_microTaskQueue [taskA] started.
End Samples.

(* ===================================================================== *)
(** ** Invariants and auxiliary notions                                   *)
(* ===================================================================== *)

(** The part of the world the scheduler functions read and write. *)
Definition timerState (w : World) :=
  (scheduledEvents w, hostTimers w, nextHandle w, nextRef w, clock w).

(** What holds of every world the page can be in. *)
Record wf (w : World) : Prop := mkWf {
  (* event objects are distinct, and older than the next allocation *)
  wf_refs_nodup : NoDup (ref <$> scheduledEvents w);
  wf_refs_fresh : ∀ e, e ∈ scheduledEvents w → (ref e < nextRef w)%nat;
  (* every live timer is the one recorded in a registered event *)
  wf_live_owned : ∀ h t, hostTimers w !! h = Some t →
    ∃ e, e ∈ scheduledEvents w ∧ ref e = target t ∧ timer e = Some h;
  wf_live_fresh : ∀ h t, hostTimers w !! h = Some t → (h < nextHandle w)%positive;
  (* every handle recorded in a registered event is live *)
  wf_armed_live : ∀ e h, e ∈ scheduledEvents w → timer e = Some h →
    ∃ t, hostTimers w !! h = Some t ∧ target t = ref e;
  (* suspended exactly while paused *)
  wf_paused : status w = paused → ∀ e, e ∈ scheduledEvents w → timer e = None;
  wf_not_paused : status w ≠ paused → ∀ e, e ∈ scheduledEvents w → is_Some (timer e);
  (* delays are not negative *)
  wf_delay_nonneg : ∀ e, e ∈ scheduledEvents w → 0 ≤ remainingDelay e
}.

(** The timer table once the handles recorded in [l] are cleared. *)
Definition cancelled (m : gmap positive HostTimer) (l : list ScheduledEvent)
    : gmap positive HostTimer :=
  foldl (λ m e, match timer e with Some h => delete h m | None => m end) m l.

(** How the loop, started in world [w] and ending with timer table [m']
    and next handle [nh'], leaves an event [e]: untouched when it holds a
    timer, otherwise re-armed for its remaining delay under a handle
    allocated during the loop. *)
Definition rearmed (w : World) (m' : gmap positive HostTimer) (nh' : positive)
    (e e' : ScheduledEvent) : Prop :=
  match timer e with
  | Some _ => e' = e
  | None =>
      ∃ h', e' = mkScheduledEvent (ref e) (callback e) (remainingDelay e)
                   (Some h') (Some (clock w))
            ∧ (nextHandle w ≤ h' < nh')%positive
            ∧ m' !! h' = Some (mkHostTimer (ref e) (callback e) (remainingDelay e))
  end.

(** What the loop of [resumeExecution] does to an event, whatever the
    state of the timer table. *)
Definition resumedFrom (w : World) (e e' : ScheduledEvent) : Prop :=
  ref e' = ref e ∧ callback e' = callback e
  ∧ remainingDelay e' = remainingDelay e
  ∧ (e' = e ∨ (timer e = None ∧ startTime e' = Some (clock w))).

(** What is left of the scheduler once timer [h] has fired and its
    closure has dropped the event [r] from the registry. *)
Definition detach (h : handle) (r : nat) (w : World) : World :=
  set_scheduledEvents (filter (λ e, ref e ≠ r) (scheduledEvents w))
    (clearTimeout h w).

(** The top-level [scheduleEvent] calls of a program, in order. *)
Definition scheduleAll (prog : list (Callback * Z)) (w : World) : World :=
  foldl (λ w p, scheduleEvent p.1 p.2 w) w prog.

(** The part of [simulateEventLoop] between the reset and the first
    [scheduleEvent]. *)
Definition startMain (w : World) : World :=
  log "1. Starting main execution" (pushCall "main()" ty_DOM 0 (set_status running w)).

(** An event registered during a step that started in [w]. *)
Definition freshEvent (w : World) (e' : ScheduledEvent) : Prop :=
  (nextRef w ≤ ref e')%nat ∧ 0 ≤ remainingDelay e' ∧ startTime e' = Some (clock w).


(** A sequence of events during which the clock is never set back. *)
Definition steadyClock (evs : list Event) : Prop := ∀ d, ClockBack d ∉ evs.


(** The sum [a + b] of two integers held in IEEE 754 doubles, as a JS
    addition computes it: the exact sum rounded to 53 significant bits,
    ties to even (overflow to infinity, beyond 2^1023, is out of reach of a
    counter and left out). *)
Definition roundDouble (z : Z) : Z :=
  let m := Z.abs z in
  let e := Z.log2 m - 52 in
  if decide (e ≤ 0) then z
  else
    let q := m / 2 ^ e in
    let r := m mod 2 ^ e in
    let half := 2 ^ (e - 1) in
    let q' :=
      if decide (r < half) then q
      else if decide (half < r) then q + 1
      else if Z.even q then q else q + 1 in
    Z.sgn z * (q' * 2 ^ e).

Definition jsAdd (a b : Z) : Z := roundDouble (a + b).

(** A page started at time 1000 and left alone for 700 ms. *)
Definition runningAt1700 : World := run (initial 1000) [ClickRun; Tick 700].

(** The same page, paused at that moment. *)
Definition runningAt1700Paused : World :=
  run (initial 1000) [ClickRun; Tick 700; ClickPauseResume].

(** Every item the template renders: the four [each] blocks (lines 236,
    251, 267, 282) are keyed by [item.id]. *)
Definition allItems (w : World) : list QueueItem :=
  let '(cs, wa, mq, cq) := containers w in cs ++ wa ++ mq ++ cq.

(** Ids are pairwise distinct, not negative and below the counter. *)
Definition idsOk (w : World) : Prop :=
  0 ≤ uniqueId w
  ∧ NoDup (id <$> allItems w)
  ∧ ∀ item, item ∈ allItems w → 0 ≤ id item < uniqueId w.

(** One elementary change of the containers: some items are dropped, the
    others keep their order, and at most one item is added, under an id the
    counter has just passed. *)
Definition evolves (w w' : World) : Prop :=
  uniqueId w ≤ uniqueId w'
  ∧ ∃ kept new,
      allItems w' ≡ₚ kept ++ new
      ∧ kept `sublist_of` allItems w
      ∧ (length new ≤ 1)%nat
      ∧ Forall (λ item, uniqueId w ≤ id item < uniqueId w') new.

(** Every live timer is the closure of the event that records its handle:
    it runs that event's callback and was armed for that event's remaining
    delay. *)
Definition armedOk (w : World) : Prop :=
  ∀ h t e, hostTimers w !! h = Some t → e ∈ scheduledEvents w →
    timer e = Some h →
    t = mkHostTimer (ref e) (callback e) (remainingDelay e).

(* ===================================================================== *)
(** ** The execution-queue model                                          *)
(* ===================================================================== *)

Section QueueModel.

Implicit Types (w : World) (txt : string) (item : QueueItem).

Lemma filter_all_keep {A} (P : A → Prop) `{!∀ x, Decision (P x)} (l : list A) :
    Forall P l → filter P l = l.
  Proof.
    induction 1 as [|x l Hx _ IH]; [done|].
    by rewrite filter_cons_True, IH.
  Qed.

Lemma removeFromCallStack_absent txt w :
    Forall (λ item, text item ≠ Some txt) (callStack w) →
    removeFromCallStack txt w = w.
  Proof.
    intros Hall. unfold removeFromCallStack.
    rewrite (filter_all_keep _ _ Hall). by destruct w.
  Qed.

Lemma dequeueMany_spec n w :
    (n ≤ length (callbackQueue w))%nat →
    (dequeueMany n w).1 = Some <$> take n (callbackQueue w)
    ∧ callbackQueue (dequeueMany n w).2 = drop n (callbackQueue w).
  Proof.
    revert w. induction n as [|n IH]; intros w Hn; [done|].
    destruct (callbackQueue w) as [|x q] eqn:Hq; [simpl in Hn; lia|].
    simpl in Hn.
    specialize (IH (set_callbackQueue q w)). simpl in IH.
    destruct IH as [IH1 IH2]; [lia|].
    simpl. unfold dequeueOneMacrotask. rewrite Hq. simpl.
    destruct (dequeueMany n (set_callbackQueue q w)) as [xs w2] eqn:E.
    simpl in *. by rewrite IH1.
  Qed.

Lemma pushCallback_queue txt ty dur w :
    callbackQueue (pushCallback txt ty dur w)
    = callbackQueue w ++ [mkQueueItem (uniqueId w) (Some txt) (Some ty) (Some dur)].
  Proof. done. Qed.

End QueueModel.

(** C3, as stated (refuted at a concrete stack): a pop by text does not
    stop at the first match. On the stack [f(), g(), f()] it removes both
    entries labelled [f()], where removal of the first match only would
    leave [g(), f()]. *)
Lemma removeFromCallStack_removes_every_match :
  callStack Samples.twoFrames = [Samples.frameA; Samples.frameG; Samples.frameB]
  ∧ callStack (removeFromCallStack "f()" Samples.twoFrames) = [Samples.frameG]
  ∧ spec_removeFirst "f()" (callStack Samples.twoFrames)
    = [Samples.frameG; Samples.frameB]
  ∧ callStack (removeFromCallStack "f()" Samples.twoFrames)
    ≠ spec_removeFirst "f()" (callStack Samples.twoFrames).
Proof. repeat split; try reflexivity. vm_compute. discriminate. Qed.

(** C3, amended: for every stack and every text, [removeFromCallStack]
    removes every entry whose label equals the text and nothing else: the
    entries kept are exactly those with another label, in their original
    order; when no entry matches the world is unchanged; no other script
    variable is touched. *)
Theorem removeFromCallStack_removes_all_matches (w : World) (txt : string) :
  (∀ item, item ∈ callStack (removeFromCallStack txt w)
           ↔ item ∈ callStack w ∧ text item ≠ Some txt)
  ∧ callStack (removeFromCallStack txt w) `sublist_of` callStack w
  ∧ (Forall (λ item, text item ≠ Some txt) (callStack w) →
     removeFromCallStack txt w = w)
  ∧ webAPI (removeFromCallStack txt w) = webAPI w
  ∧ microTaskQueue (removeFromCallStack txt w) = microTaskQueue w
  ∧ callbackQueue (removeFromCallStack txt w) = callbackQueue w.
Proof.
  split_and!; try done.
  - intros item. simpl. rewrite list_elem_of_filter. tauto.
  - simpl. apply sublist_filter.
  - apply removeFromCallStack_absent.
Qed.

(** C4, as stated (refuted at a concrete queue): with two microtasks
    enqueued, the drain reads only the first; the queue is emptied, the call
    stack receives the first item alone, and the second item is in no
    container afterwards. *)
Lemma drainMicrotasks_keeps_only_head :
  let w := Samples.twoMicrotasks in
  let w' := runCallback cb_processMicrotask w in
  microTaskQueue w = [Samples.taskA; Samples.taskB]
  ∧ option_list (drainMicrotasks w).1 = [Samples.taskA]
  ∧ option_list (drainMicrotasks w).1 ≠ microTaskQueue w
  ∧ microTaskQueue w' = []
  ∧ text <$> callStack w' = [Some "main()"; Some "A"]
  ∧ Samples.taskB ∉ callStack w' ++ webAPI w' ++ microTaskQueue w' ++ callbackQueue w'.
Proof.
  repeat split; try reflexivity.
  - vm_compute. discriminate.
  - vm_compute. intros H. repeat (inversion H as [|? ? ? H']; subst; clear H; rename H' into H).
Qed.

(** C4, amended: for every world whose microtask queue is [a :: rest], the
    drain reads the head [a] only and leaves the microtask queue empty; the
    closure that performs it appends [a], under a fresh id, to the call
    stack and touches neither the pending operations nor the callback
    queue. What is read is the whole queue when (as in the program run by
    the page) exactly one microtask is enqueued. *)
Theorem drainMicrotasks_takes_head (w : World) (a : QueueItem) (rest : list QueueItem) :
  microTaskQueue w = a :: rest →
  let w' := runCallback cb_processMicrotask w in
  (drainMicrotasks w).1 = Some a
  ∧ microTaskQueue (drainMicrotasks w).2 = []
  ∧ microTaskQueue w' = []
  ∧ callStack w' = callStack w ++ [mkQueueItem (uniqueId w) (text a) (type a) (duration a)]
  ∧ webAPI w' = webAPI w
  ∧ callbackQueue w' = callbackQueue w
  ∧ (rest = [] → option_list (drainMicrotasks w).1 = microTaskQueue w).
Proof.
  intros Hq. simpl. unfold drainMicrotasks. rewrite Hq. simpl.
  split_and!; try done.
  by intros ->.
Qed.

Lemma drainMicrotasks_takes_head_witness :
  microTaskQueue Samples.oneMicrotask = [Samples.taskA]
  ∧ microTaskQueue (runCallback cb_processMicrotask Samples.oneMicrotask) = []
  ∧ option_list (drainMicrotasks Samples.oneMicrotask).1
    = microTaskQueue Samples.oneMicrotask.
Proof.
  assert (Hq : microTaskQueue Samples.oneMicrotask = [Samples.taskA])
    by (vm_compute; reflexivity).
  destruct (drainMicrotasks_takes_head Samples.oneMicrotask Samples.taskA [] Hq)
    as (_ & _ & H3 & _ & _ & _ & H7).
  split_and!; [exact Hq | exact H3 | exact (H7 eq_refl)].
Defined.

(** C5: the callback (macrotask) queue is first-in first-out and is read
    one item at a time. An enqueue appends at the tail; a dequeue splits the
    queue into the at most one item it reads, the head, and the queue it
    leaves; and after enqueuing A and then B behind any queue [q], reading
    the whole queue one dequeue at a time yields the items of [q], then A,
    then B. *)
Theorem callbackQueue_fifo (w : World)
    (txtA txtB : string) (tyA tyB : EventType) (durA durB : Z) :
  let A := mkQueueItem (uniqueId w) (Some txtA) (Some tyA) (Some durA) in
  let B := mkQueueItem (uniqueId w + 1) (Some txtB) (Some tyB) (Some durB) in
  let w2 := pushCallback txtB tyB durB (pushCallback txtA tyA durA w) in
  callbackQueue w2 = callbackQueue w ++ [A; B]
  ∧ callbackQueue w
    = option_list (dequeueOneMacrotask w).1 ++ callbackQueue (dequeueOneMacrotask w).2
  ∧ (length (option_list (dequeueOneMacrotask w).1) ≤ 1)%nat
  ∧ (dequeueOneMacrotask w).1 = head (callbackQueue w)
  ∧ (dequeueMany (length (callbackQueue w2)) w2).1
    = Some <$> (callbackQueue w ++ [A; B])
  ∧ callbackQueue (dequeueMany (length (callbackQueue w2)) w2).2 = [].
Proof.
  intros A B w2.
  assert (Hq : callbackQueue w2 = callbackQueue w ++ [A; B]).
  { subst w2. rewrite !pushCallback_queue. by rewrite <- app_assoc. }
  destruct (dequeueMany_spec (length (callbackQueue w2)) w2) as [H1 H2]; [lia|].
  split_and!.
  - exact Hq.
  - simpl. by destruct (callbackQueue w).
  - simpl. destruct (callbackQueue w); simpl; lia.
  - done.
  - by rewrite H1, firstn_all, Hq.
  - by rewrite H2, drop_all.
Qed.

(** The closures of log lines 11 and 12 move the head of a non-empty
    callback queue to the call stack and leave the rest in order. *)
Lemma processCallback_moves_head (w : World) (x : QueueItem) (q : list QueueItem) :
  callbackQueue w = x :: q →
  callbackQueue (runCallback cb_processDbCallback w) = q
  ∧ callbackQueue (runCallback cb_processImageCallback w) = q
  ∧ callStack (runCallback cb_processDbCallback w)
    = callStack w ++ [mkQueueItem (uniqueId w) (text x) (type x) (duration x)]
  ∧ callStack (runCallback cb_processImageCallback w)
    = callStack w ++ [mkQueueItem (uniqueId w) (text x) (type x) (duration x)].
Proof.
  intros Hq. simpl. unfold dequeueOneMacrotask. rewrite Hq. done.
Qed.

(** C8, as stated (refuted at a concrete world): on an empty callback queue
    the dequeue reads nothing, yet the closure that performs it still adds
    an entry, carrying only an id, to the call stack. *)
Lemma dequeue_on_empty_pushes_blank_entry :
  let w := Samples.started in
  let w' := runCallback cb_processDbCallback w in
  callbackQueue w = []
  ∧ (dequeueOneMacrotask w).1 = None
  ∧ callStack w' = callStack w ++ [mkQueueItem 2 None None None]
  ∧ callStack w' ≠ callStack w.
Proof. vm_compute. repeat split. discriminate. Qed.

(** C8, amended: operating on an absent item never fails (the functions
    are total). [removeFromCallStack] with no matching label leaves the
    world unchanged. A dequeue on an empty callback queue reads nothing and
    leaves the queue empty; the closure that performs it leaves the pending
    operations, the microtask queue and the callback queue unchanged and
    appends to the call stack one entry that carries a fresh id and no
    text, type or duration. *)
Theorem absent_item_operations (w : World) (txt : string) :
  (Forall (λ item, text item ≠ Some txt) (callStack w) →
   removeFromCallStack txt w = w)
  ∧ (callbackQueue w = [] →
     let w' := runCallback cb_processDbCallback w in
     dequeueOneMacrotask w = (None, w)
     ∧ callbackQueue w' = []
     ∧ webAPI w' = webAPI w
     ∧ microTaskQueue w' = microTaskQueue w
     ∧ callStack w' = callStack w ++ [mkQueueItem (uniqueId w) None None None]
     ∧ uniqueId w' = uniqueId w + 1).
Proof.
  split; [apply removeFromCallStack_absent|].
  intros Hq. simpl. unfold dequeueOneMacrotask. rewrite Hq. simpl.
  split_and!; try done.
  f_equal. destruct w; simpl in *; by subst.
Qed.

Lemma absent_item_operations_witness :
  removeFromCallStack "nope()" Samples.started = Samples.started
  ∧ dequeueOneMacrotask Samples.started = (None, Samples.started)
  ∧ callStack (runCallback cb_processDbCallback Samples.started)
    = callStack Samples.started
      ++ [mkQueueItem (uniqueId Samples.started) None None None].
Proof.
  destruct (absent_item_operations Samples.started "nope()") as [H1 H2].
  assert (Hno : Forall (λ item, text item ≠ Some "nope()") (callStack Samples.started))
    by (vm_compute; repeat constructor; discriminate).
  assert (Hq : callbackQueue Samples.started = []) by (vm_compute; reflexivity).
  destruct (H2 Hq) as (H3 & _ & _ & _ & H5 & _).
  split_and!; [exact (H1 Hno) | exact H3 | exact H5].
Defined.

(* ===================================================================== *)
(** ** Well-formed worlds                                                 *)
(* ===================================================================== *)

Section WellFormed.

Implicit Types (w : World) (e : ScheduledEvent) (h : handle).

Lemma wf_same w w' :
    timerState w' = timerState w → status w' = status w → wf w → wf w'.
  Proof.
    unfold timerState. intros Hts Hst [H1 H2 H3 H4 H5 H6 H7 H8].
    injection Hts as Hev Hht Hnh Hnr Hck.
    split; rewrite ?Hev, ?Hht, ?Hnh, ?Hnr, ?Hck, ?Hst; assumption.
  Qed.

Lemma wf_initial t0 : wf (initial t0).
  Proof.
    split; simpl; [constructor | intros; exfalso; set_solver ..].
  Qed.

  (** *** [scheduleEvent] *)

Lemma scheduleEvent_fields cb delay w :
    let w' := scheduleEvent cb delay w in
    scheduledEvents w'
    = scheduledEvents w
      ++ [mkScheduledEvent (nextRef w) cb delay (Some (nextHandle w)) (Some (clock w))]
    ∧ hostTimers w' = <[nextHandle w := mkHostTimer (nextRef w) cb delay]> (hostTimers w)
    ∧ nextHandle w' = Pos.succ (nextHandle w)
    ∧ nextRef w' = S (nextRef w)
    ∧ clock w' = clock w
    ∧ status w' = status w
    ∧ containers w' = containers w
    ∧ output w' = output w
    ∧ uniqueId w' = uniqueId w.
  Proof. done. Qed.

Lemma wf_scheduleEvent cb delay w :
    wf w → status w ≠ paused → 0 ≤ delay → wf (scheduleEvent cb delay w).
  Proof.
    intros [H1 H2 H3 H4 H5 H6 H7 H8] Hst Hd.
    destruct (scheduleEvent_fields cb delay w)
      as (Hev & Hht & Hnh & Hnr & Hck & Hs & _).
    set (w' := scheduleEvent cb delay w) in *.
    split; rewrite ?Hev, ?Hht, ?Hnh, ?Hnr, ?Hck, ?Hs.
    - rewrite fmap_app. simpl. apply NoDup_app. split_and!; [done| |apply NoDup_singleton].
      intros r Hr Hr'. apply list_elem_of_singleton in Hr'. subst r.
      apply list_elem_of_fmap in Hr as (e & He1 & He2).
      specialize (H2 e He2). lia.
    - intros e He. apply elem_of_app in He as [He | He].
      + specialize (H2 e He). lia.
      + apply list_elem_of_singleton in He. subst e. simpl. lia.
    - intros h t Hl. rewrite lookup_insert in Hl. case_decide as Hh.
      + injection Hl as <-. subst h.
        exists (mkScheduledEvent (nextRef w) cb delay (Some (nextHandle w))
                  (Some (clock w))).
        split; [|done]. apply elem_of_app. right. by apply list_elem_of_singleton.
      + destruct (H3 h t Hl) as (e & He & Hr & Ht).
        exists e. split_and!; [|done|done]. apply elem_of_app. by left.
    - intros h t Hl. rewrite lookup_insert in Hl. case_decide as Hh.
      + subst h. lia.
      + specialize (H4 h t Hl). lia.
    - intros e h He Ht. apply elem_of_app in He as [He | He].
      + destruct (H5 e h He Ht) as (t & Hl & Htg).
        exists t. split; [|done]. rewrite lookup_insert_ne; [done|].
        specialize (H4 h t Hl). lia.
      + apply list_elem_of_singleton in He. subst e. simpl in *.
        injection Ht as <-. eexists. rewrite lookup_insert_eq. done.
    - done.
    - intros _ e He. apply elem_of_app in He as [He | He]; [by apply H7|].
      apply list_elem_of_singleton in He. subst e. simpl. by eexists.
    - intros e He. apply elem_of_app in He as [He | He]; [by apply H8|].
      apply list_elem_of_singleton in He. by subst e.
  Qed.

  (** *** The [forEach] loops of [reset] and [pauseExecution] *)

Lemma foldl_cancelEvent l w :
    foldl cancelEvent w l = set_hostTimers (cancelled (hostTimers w) l) w.
  Proof.
    revert w. induction l as [|e l IH]; intros w; simpl.
    - by destruct w.
    - rewrite IH. unfold cancelEvent, cancelled. by destruct (timer e).
  Qed.

Lemma cancelled_lookup l m h t :
    cancelled m l !! h = Some t ↔ m !! h = Some t ∧ ∀ e, e ∈ l → timer e ≠ Some h.
  Proof.
    revert m. induction l as [|e l IH]; intros m; simpl.
    - split; [intros ?; split; [done|] | tauto]. intros e He. by apply not_elem_of_nil in He.
    - unfold cancelled in *. simpl. rewrite IH. split.
      + intros [Hl Hall]. destruct (timer e) as [h'|] eqn:Ht.
        * rewrite lookup_delete in Hl. case_decide; [done|].
          split; [done|]. intros e' He'. apply elem_of_cons in He' as [-> | He'].
          -- rewrite Ht. congruence.
          -- by apply Hall.
        * split; [done|]. intros e' He'. apply elem_of_cons in He' as [-> | He'].
          -- by rewrite Ht.
          -- by apply Hall.
      + intros [Hl Hall]. split.
        * destruct (timer e) as [h'|] eqn:Ht; [|done].
          rewrite lookup_delete_ne; [done|].
          intros ->. apply (Hall e); [apply elem_of_cons; by left | done].
        * intros e' He'. apply Hall. apply elem_of_cons. by right.
  Qed.

Lemma cancelled_owned_empty w :
    wf w → cancelled (hostTimers w) (scheduledEvents w) = ∅.
  Proof.
    intros Hwf. apply map_eq. intros h. rewrite lookup_empty.
    destruct (cancelled _ _ !! h) as [t|] eqn:Hl; [|done].
    apply cancelled_lookup in Hl as [Hl Hall].
    destruct (wf_live_owned w Hwf h t Hl) as (e & He & _ & Ht).
    by destruct (Hall e He).
  Qed.

Lemma reset_fields w :
    status (reset w) = idle
    ∧ containers (reset w) = ([], [], [], [])
    ∧ output (reset w) = []
    ∧ scheduledEvents (reset w) = []
    ∧ hostTimers (reset w) = cancelled (hostTimers w) (scheduledEvents w)
    ∧ uniqueId (reset w) = uniqueId w
    ∧ nextHandle (reset w) = nextHandle w
    ∧ nextRef (reset w) = nextRef w
    ∧ clock (reset w) = clock w.
  Proof. unfold reset. rewrite foldl_cancelEvent. done. Qed.

Lemma reset_containers w :
    callStack (reset w) = [] ∧ webAPI (reset w) = []
    ∧ microTaskQueue (reset w) = [] ∧ callbackQueue (reset w) = [].
  Proof. unfold reset. rewrite foldl_cancelEvent. done. Qed.

Lemma wf_no_events w : scheduledEvents w = [] → hostTimers w = ∅ → wf w.
  Proof.
    intros Hev Hht.
    split; rewrite ?Hev, ?Hht; [constructor | intros; exfalso; set_solver ..].
  Qed.

Lemma wf_reset w : wf w → wf (reset w).
  Proof.
    intros Hwf.
    destruct (reset_fields w) as (_ & _ & _ & Hev & Hht & _).
    rewrite (cancelled_owned_empty w Hwf) in Hht.
    by apply wf_no_events.
  Qed.

Lemma foldl_pauseStep l w seen :
    foldl pauseStep (w, seen) l
    = (foldl cancelEvent w l, seen ++ (pauseEvent (clock w) <$> l)).
  Proof.
    revert w seen. induction l as [|e l IH]; intros w seen; simpl.
    - by rewrite app_nil_r.
    - rewrite IH. rewrite <- app_assoc. simpl.
      assert (clock (cancelEvent w e) = clock w) as ->; [|done].
      unfold cancelEvent. by destruct (timer e).
  Qed.

Lemma pauseExecution_fields w :
    status w = running →
    let w' := pauseExecution w in
    status w' = paused
    ∧ scheduledEvents w' = pauseEvent (clock w) <$> scheduledEvents w
    ∧ hostTimers w' = cancelled (hostTimers w) (scheduledEvents w)
    ∧ output w' = output w ++ ["⏸️ Execution paused"]
    ∧ containers w' = containers w
    ∧ uniqueId w' = uniqueId w
    ∧ nextHandle w' = nextHandle w
    ∧ nextRef w' = nextRef w
    ∧ clock w' = clock w.
  Proof.
    intros Hst. unfold pauseExecution.
    destruct (decide (status w ≠ running)) as [Hne|_]; [done|].
    simpl. rewrite foldl_pauseStep, foldl_cancelEvent. done.
  Qed.

Lemma pauseExecution_not_running w :
    status w ≠ running → pauseExecution w = w.
  Proof. intros Hst. unfold pauseExecution. by rewrite decide_True. Qed.

Lemma pauseEvent_fields now e :
    ref (pauseEvent now e) = ref e
    ∧ callback (pauseEvent now e) = callback e
    ∧ timer (pauseEvent now e) = None
    ∧ startTime (pauseEvent now e) = startTime e.
  Proof. unfold pauseEvent. by destruct (timer e) eqn:Ht. Qed.


(** Whatever the clock reads, the pause computation leaves no negative
      delay. *)
Lemma pauseEvent_nonneg now e :
    0 ≤ remainingDelay e → 0 ≤ remainingDelay (pauseEvent now e).
  Proof.
    intros Hd. unfold pauseEvent. destruct (timer e); simpl; [|lia].
    destruct (truthy (startTime e)); lia.
  Qed.

Lemma wf_pauseExecution w : wf w → wf (pauseExecution w).
  Proof.
    intros Hwf.
    destruct (decide (status w = running)) as [Hst|Hst];
      [|by rewrite pauseExecution_not_running].
    destruct (pauseExecution_fields w Hst)
      as (Hs & Hev & Hht & _ & _ & _ & Hnh & Hnr & Hck).
    rewrite (cancelled_owned_empty w Hwf) in Hht.
    destruct Hwf as [H1 H2 H3 H4 H5 H6 H7 H8].
    split; rewrite ?Hev, ?Hht, ?Hnh, ?Hnr, ?Hck, ?Hs.
    - rewrite <- list_fmap_compose.
      erewrite list_fmap_ext; [exact H1|].
      intros i e _. simpl. apply pauseEvent_fields.
    - intros e' He'. apply list_elem_of_fmap in He' as (e & -> & He).
      destruct (pauseEvent_fields (clock w) e) as (-> & _). by apply H2.
    - intros h t Hl. by rewrite lookup_empty in Hl.
    - intros h t Hl. by rewrite lookup_empty in Hl.
    - intros e' h He' Ht. apply list_elem_of_fmap in He' as (e & -> & He).
      destruct (pauseEvent_fields (clock w) e) as (_ & _ & Hn & _). congruence.
    - intros _ e' He'. apply list_elem_of_fmap in He' as (e & -> & He).
      apply pauseEvent_fields.
    - done.
    - intros e' He'. apply list_elem_of_fmap in He' as (e & -> & He).
      apply pauseEvent_nonneg. by apply H8.
  Qed.

  (** *** The [forEach] loop of [resumeExecution] *)

Lemma rearmed_mono w m1 nh1 m2 nh2 e e' :
    (nh1 ≤ nh2)%positive →
    (∀ h, (h < nh1)%positive → m2 !! h = m1 !! h) →
    rearmed w m1 nh1 e e' → rearmed w m2 nh2 e e'.
  Proof.
    intros Hle Hm. unfold rearmed. destruct (timer e); [done|].
    intros (h' & -> & Hh & Hl). exists h'. split_and!; [done|lia|lia|].
    rewrite Hm; [done|lia].
  Qed.

Lemma foldl_resumeEvent w l :
    (∀ h t, hostTimers w !! h = Some t → (h < nextHandle w)%positive) →
    ∃ m' nh' l',
      foldl resumeEvent (w, []) l = (set_nextHandle nh' (set_hostTimers m' w), l')
      ∧ (nextHandle w ≤ nh')%positive
      ∧ Forall2 (rearmed w m' nh') l l'
      ∧ (∀ h, (h < nextHandle w)%positive → m' !! h = hostTimers w !! h)
      ∧ (∀ h t, m' !! h = Some t → (nextHandle w ≤ h)%positive →
           (h < nh')%positive
           ∧ ∃ e', e' ∈ l' ∧ timer e' = Some h ∧ target t = ref e').
  Proof.
    intros Hfresh. induction l as [|e l IH] using rev_ind.
    - exists (hostTimers w), (nextHandle w), []. simpl. split_and!.
      + by destruct w.
      + lia.
      + constructor.
      + done.
      + intros h t Hl Hh. specialize (Hfresh h t Hl). lia.
    - destruct IH as (m' & nh' & l' & Hfold & Hle & Hall & Hold & Hnew).
      rewrite foldl_app, Hfold. simpl.
      destruct (timer e) as [h0|] eqn:Ht.
      + exists m', nh', (l' ++ [e]). split_and!; try done.
        * apply Forall2_app; [done|]. constructor; [|constructor].
          unfold rearmed. by rewrite Ht.
        * intros h t Hl Hh. destruct (Hnew h t Hl Hh) as (Hlt & e' & He' & Hte' & Htg).
          split; [done|]. exists e'. split; [|done]. apply elem_of_app. by left.
      + set (t0 := mkHostTimer (ref e) (callback e) (remainingDelay e)).
        set (e0 := mkScheduledEvent (ref e) (callback e) (remainingDelay e)
                     (Some nh') (Some (clock w))).
        exists (<[nh' := t0]> m'), (Pos.succ nh'), (l' ++ [e0]). split_and!.
        * done.
        * lia.
        * apply Forall2_app.
          -- eapply Forall2_impl; [exact Hall|]. intros x y. apply rearmed_mono; [lia|].
             intros h Hh. rewrite lookup_insert_ne; [done|lia].
          -- constructor; [|constructor]. unfold rearmed. rewrite Ht.
             exists nh'. split_and!; [done|lia|lia|]. by rewrite lookup_insert_eq.
        * intros h Hh. rewrite lookup_insert_ne; [by apply Hold|lia].
        * intros h t Hl Hh. rewrite lookup_insert in Hl. case_decide as Heq.
          -- injection Hl as <-. subst h. split; [lia|].
             exists e0. split; [|done]. apply elem_of_app. right.
             by apply list_elem_of_singleton.
          -- destruct (Hnew h t Hl Hh) as (Hlt & e' & He' & Hte' & Htg).
             split; [lia|]. exists e'. split; [|done]. apply elem_of_app. by left.
  Qed.

Lemma resumeExecution_not_paused w :
    status w ≠ paused → resumeExecution w = w.
  Proof. intros Hst. unfold resumeExecution. by rewrite decide_True. Qed.

Lemma resumeExecution_fields w :
    status w = paused →
    (∀ h t, hostTimers w !! h = Some t → (h < nextHandle w)%positive) →
    let w' := resumeExecution w in
    status w' = running
    ∧ output w' = output w ++ ["▶️ Execution resumed"]
    ∧ containers w' = containers w
    ∧ uniqueId w' = uniqueId w
    ∧ nextRef w' = nextRef w
    ∧ clock w' = clock w
    ∧ (nextHandle w ≤ nextHandle w')%positive
    ∧ Forall2 (rearmed w (hostTimers w') (nextHandle w'))
        (scheduledEvents w) (scheduledEvents w')
    ∧ (∀ h, (h < nextHandle w)%positive → hostTimers w' !! h = hostTimers w !! h)
    ∧ (∀ h t, hostTimers w' !! h = Some t → (nextHandle w ≤ h)%positive →
         (h < nextHandle w')%positive
         ∧ ∃ e', e' ∈ scheduledEvents w' ∧ timer e' = Some h ∧ target t = ref e').
  Proof.
    intros Hst Hfresh. unfold resumeExecution.
    destruct (decide (status w ≠ paused)) as [Hne|_]; [done|].
    destruct (foldl_resumeEvent (set_status running w) (scheduledEvents w) Hfresh)
      as (m' & nh' & l' & Hfold & Hle & Hall & Hold & Hnew).
    simpl in *. rewrite Hfold. simpl. done.
  Qed.

Lemma Forall2_elem_of_r {A B} (P : A → B → Prop) (l : list A) (k : list B) y :
    Forall2 P l k → y ∈ k → ∃ x, x ∈ l ∧ P x y.
  Proof.
    induction 1 as [|x y' l k Hxy _ IH]; intros Hy.
    - by apply not_elem_of_nil in Hy.
    - apply elem_of_cons in Hy as [-> | Hy].
      + exists x. split; [apply elem_of_cons; by left | done].
      + destruct (IH Hy) as (x' & Hx' & HP). exists x'.
        split; [apply elem_of_cons; by right | done].
  Qed.

Lemma rearmed_fields w m nh e e' :
    rearmed w m nh e e' →
    ref e' = ref e ∧ callback e' = callback e ∧ remainingDelay e' = remainingDelay e.
  Proof.
    unfold rearmed. destruct (timer e); [by intros -> |].
    by intros (h' & -> & _).
  Qed.

Lemma rearmed_refs w m nh l l' :
    Forall2 (rearmed w m nh) l l' → ref <$> l' = ref <$> l.
  Proof.
    induction 1 as [|e e' l l' He _ IH]; [done|].
    rewrite !fmap_cons, IH. f_equal. by apply rearmed_fields in He as (-> & _).
  Qed.

Lemma wf_paused_no_timer w h t :
    wf w → status w = paused → hostTimers w !! h = Some t → False.
  Proof.
    intros Hwf Hst Hl.
    destruct (wf_live_owned w Hwf h t Hl) as (e & He & _ & Ht).
    by rewrite (wf_paused w Hwf Hst e He) in Ht.
  Qed.

Lemma wf_resumeExecution w : wf w → wf (resumeExecution w).
  Proof.
    intros Hwf.
    destruct (decide (status w = paused)) as [Hst|Hst];
      [|by rewrite resumeExecution_not_paused].
    destruct (resumeExecution_fields w Hst (wf_live_fresh w Hwf))
      as (Hs & _ & _ & _ & Hnr & Hck & Hle & Hall & Hold & Hnew).
    generalize dependent (resumeExecution w). intros w' Hs Hnr Hck Hle Hall Hold Hnew.
    assert (Hback : ∀ e', e' ∈ scheduledEvents w' →
              ∃ e h', e ∈ scheduledEvents w
                ∧ e' = mkScheduledEvent (ref e) (callback e) (remainingDelay e)
                         (Some h') (Some (clock w))
                ∧ hostTimers w' !! h'
                  = Some (mkHostTimer (ref e) (callback e) (remainingDelay e))).
    { intros e' He'. destruct (Forall2_elem_of_r _ _ _ _ Hall He') as (e & He & HP).
      unfold rearmed in HP. rewrite (wf_paused w Hwf Hst e He) in HP.
      destruct HP as (h' & -> & _ & Hl). by exists e, h'. }
    split.
    - rewrite (rearmed_refs _ _ _ _ _ Hall). apply Hwf.
    - intros e' He'. destruct (Hback e' He') as (e & h' & He & -> & _). simpl.
      rewrite Hnr. by apply Hwf.
    - intros h t Hl. destruct (decide (h < nextHandle w)%positive) as [Hlt|Hge].
      + rewrite (Hold h Hlt) in Hl. destruct (wf_paused_no_timer w h t Hwf Hst Hl).
      + destruct (Hnew h t Hl) as (_ & e' & He' & Hte' & Htg); [lia|]. by exists e'.
    - intros h t Hl. destruct (decide (h < nextHandle w)%positive) as [Hlt|Hge]; [lia|].
      destruct (Hnew h t Hl) as (Hlt & _); [lia|done].
    - intros e' h He' Ht. destruct (Hback e' He') as (e & h' & He & -> & Hl).
      simpl in Ht. injection Ht as ->. by eexists.
    - intros Hp. congruence.
    - intros _ e' He'. destruct (Hback e' He') as (e & h' & He & -> & Hl). by eexists.
    - intros e' He'. destruct (Hback e' He') as (e & h' & He & -> & Hl). simpl.
      by apply Hwf.
  Qed.

  (** *** Timer closures *)

  (** The callbacks other than the promise one leave the scheduler alone. *)
Lemma runCallback_timerState cb w :
    cb ≠ cb_createPromise → timerState (runCallback cb w) = timerState w.
  Proof. by destruct cb. Qed.

Lemma runCallback_status cb w :
    cb ≠ cb_complete → status (runCallback cb w) = status w.
  Proof. by destruct cb. Qed.

Lemma wf_runCallback cb w :
    wf w → status w ≠ paused →
    wf (runCallback cb w) ∧ status (runCallback cb w) ≠ paused.
  Proof.
    intros Hwf Hst.
    destruct (decide (cb = cb_createPromise)) as [-> | Hcp].
    - split; [|done]. simpl. apply wf_scheduleEvent; [|done|lia].
      by eapply wf_same; [| |exact Hwf].
    - destruct (decide (cb = cb_complete)) as [-> | Hcc].
      + split; [|done].
        destruct Hwf as [H1 H2 H3 H4 H5 H6 H7 H8].
        split; simpl; try done. intros _. by apply H7.
      + rewrite <- (runCallback_status cb w Hcc) in Hst. split; [|done].
        eapply wf_same; [| |exact Hwf].
        * by apply runCallback_timerState.
        * by apply runCallback_status.
  Qed.

  (** The closure drops its event after the callback has run; as no
      callback touches an event that is already registered, the drop may as
      well come first. *)
Lemma fire_detach h t w :
    hostTimers w !! h = Some t → (target t < nextRef w)%nat →
    fire h w = runCallback (fires t) (detach h (target t) w).
  Proof.
    intros Hl Hr. unfold fire. rewrite Hl.
    destruct (fires t); try reflexivity.
    unfold detach. simpl.
    rewrite filter_app, filter_cons_True, filter_nil; [done|].
    simpl. lia.
  Qed.

Lemma NoDup_fmap_eq {A B} (f : A → B) (l : list A) x y :
    NoDup (f <$> l) → x ∈ l → y ∈ l → f x = f y → x = y.
  Proof.
    induction l as [|a l IH]; intros Hnd Hx Hy Hf.
    - by apply not_elem_of_nil in Hx.
    - rewrite fmap_cons in Hnd. apply NoDup_cons in Hnd as [Hna Hnd].
      apply elem_of_cons in Hx as [-> | Hx]; apply elem_of_cons in Hy as [-> | Hy].
      + done.
      + destruct Hna. rewrite Hf. by apply list_elem_of_fmap_2.
      + destruct Hna. rewrite <- Hf. by apply list_elem_of_fmap_2.
      + by apply IH.
  Qed.

Lemma wf_detach h t w :
    wf w → hostTimers w !! h = Some t →
    wf (detach h (target t) w) ∧ status (detach h (target t) w) ≠ paused.
  Proof.
    intros Hwf Hl.
    assert (Hst : status w ≠ paused).
    { intros Hp. exact (wf_paused_no_timer w h t Hwf Hp Hl). }
    split; [|done].
    destruct (wf_live_owned w Hwf h t Hl) as (e0 & He0 & Hr0 & Ht0).
    destruct Hwf as [H1 H2 H3 H4 H5 H6 H7 H8].
    split; simpl.
    - eapply sublist_NoDup; [exact H1|]. apply fmap_sublist, sublist_filter.
    - intros e He. apply list_elem_of_filter in He as [_ He]. by apply H2.
    - intros h' t' Hl'. rewrite lookup_delete in Hl'. case_decide as Hh; [done|].
      destruct (H3 h' t' Hl') as (e & He & Hr & Ht).
      exists e. split_and!; [|done|done]. apply list_elem_of_filter. split; [|done].
      intros Heq. assert (e = e0) as ->.
      { apply (NoDup_fmap_eq ref (scheduledEvents w)); [done..|congruence]. }
      congruence.
    - intros h' t' Hl'. rewrite lookup_delete in Hl'. case_decide; [done|].
      by eapply H4.
    - intros e h' He Ht. apply list_elem_of_filter in He as [Hne He].
      destruct (H5 e h' He Ht) as (t' & Hl' & Htg).
      exists t'. split; [|done]. rewrite lookup_delete_ne; [done|].
      intros ->. rewrite Hl in Hl'. injection Hl' as ->. congruence.
    - done.
    - intros _ e He. apply list_elem_of_filter in He as [_ He]. by apply H7.
    - intros e He. apply list_elem_of_filter in He as [_ He]. by apply H8.
  Qed.

Lemma wf_fire h w : wf w → wf (fire h w).
  Proof.
    intros Hwf. destruct (hostTimers w !! h) as [t|] eqn:Hl.
    - destruct (wf_live_owned w Hwf h t Hl) as (e0 & He0 & Hr0 & _).
      rewrite (fire_detach h t w Hl); [|rewrite <- Hr0; by apply Hwf].
      destruct (wf_detach h t w Hwf Hl) as [Hwf' Hst'].
      by apply wf_runCallback.
    - unfold fire. by rewrite Hl.
  Qed.

  (** *** [simulateEventLoop] *)

Lemma wf_scheduleAll prog w :
    Forall (λ p, 0 ≤ p.2) prog → wf w → status w ≠ paused →
    wf (scheduleAll prog w) ∧ status (scheduleAll prog w) = status w.
  Proof.
    intros Hprog. revert w.
    induction Hprog as [|p prog Hp _ IH]; intros w Hwf Hst; [done|].
    simpl. destruct (IH (scheduleEvent p.1 p.2 w)) as [Hwf' Hst'].
    - by apply wf_scheduleEvent.
    - done.
    - done.
  Qed.

Lemma program_delays : Forall (λ p : Callback * Z, 0 ≤ p.2) program.
  Proof. unfold program. repeat constructor; simpl; lia. Qed.

Lemma simulateEventLoop_unfold w :
    simulateEventLoop w = scheduleAll program (startMain (reset w)).
  Proof. done. Qed.

Lemma wf_simulateEventLoop w :
    wf w → wf (simulateEventLoop w) ∧ status (simulateEventLoop w) = running.
  Proof.
    intros Hwf. rewrite simulateEventLoop_unfold.
    destruct (reset_fields w) as (_ & _ & _ & Hev & Hht & _).
    rewrite (cancelled_owned_empty w Hwf) in Hht.
    generalize dependent (reset w). intros w0 Hev Hht.
    destruct (wf_scheduleAll program (startMain w0) program_delays) as [H1 H2].
    - by apply wf_no_events.
    - done.
    - done.
  Qed.

  (** *** Every reachable world is well formed *)

Lemma wf_exec w ev : wf w → wf (exec w ev).
  Proof.
    intros Hwf. destruct ev as [| | |h|d|d]; simpl.
    - destruct (runDisabled w); [done|]. by apply wf_simulateEventLoop.
    - destruct (pauseResumeDisabled w); [done|].
      destruct (decide (status w = paused));
        [by apply wf_resumeExecution | by apply wf_pauseExecution].
    - by apply wf_reset.
    - by apply wf_fire.
    - destruct Hwf as [H1 H2 H3 H4 H5 H6 H7 H8]. by split.
    - destruct Hwf as [H1 H2 H3 H4 H5 H6 H7 H8]. by split.
  Qed.

Lemma wf_run evs w : wf w → wf (run w evs).
  Proof.
    revert w. induction evs as [|ev evs IH]; intros w Hwf; [done|].
    simpl. apply IH. by apply wf_exec.
  Qed.

Lemma reachable_wf w : reachable w → wf w.
  Proof. intros (t0 & evs & ->). apply wf_run, wf_initial. Qed.

End WellFormed.

(* ===================================================================== *)
(** ** Pause                                                              *)
(* ===================================================================== *)

(** C1, as stated (refuted at a concrete world): [pauseExecution] clears the
    handle but not the arming time. Pausing 700 ms after the start leaves
    the first event with no timer, a remaining delay of max(0, 500 - 700)
    = 0 and its [startTime] still set to 1000. *)
Lemma pauseExecution_keeps_startTime :
  status runningAt1700 = running
  ∧ scheduledEvents runningAt1700 !! 0%nat
    = Some (mkScheduledEvent 0 cb_startImageLoad 500 (Some 1%positive) (Some 1000))
  ∧ scheduledEvents (pauseExecution runningAt1700) !! 0%nat
    = Some (mkScheduledEvent 0 cb_startImageLoad 0 None (Some 1000))
  ∧ (startTime <$> scheduledEvents (pauseExecution runningAt1700)) !! 0%nat
    ≠ Some None.
Proof. vm_compute. repeat split. discriminate. Qed.

(** C1, amended: when the status is running, [pauseExecution] visits every
    registered event, in place. An event holding a live timer [h] has the
    timer stopped and its handle set to null; its [remainingDelay] becomes
    max(0, remainingDelay - (now - startTime)) when [startTime] is set and
    not zero, and is left as it is otherwise; its [startTime] is not
    cleared. An event holding no timer is left exactly as it is. Pausing
    again changes nothing, and so does [pauseExecution] in any state other
    than running. *)
Theorem pauseExecution_entries (w : World) (i : nat) (e : ScheduledEvent) :
  status w = running →
  scheduledEvents w !! i = Some e →
  ∃ e', scheduledEvents (pauseExecution w) !! i = Some e'
    ∧ ref e' = ref e ∧ callback e' = callback e
    ∧ timer e' = None
    ∧ startTime e' = startTime e
    ∧ match timer e with
      | Some h =>
          hostTimers (pauseExecution w) !! h = None
          ∧ remainingDelay e'
            = match startTime e with
              | Some t =>
                  if t =? 0 then remainingDelay e
                  else Z.max 0 (remainingDelay e - (clock w - t))
              | None => remainingDelay e
              end
      | None => e' = e
      end
    ∧ length (scheduledEvents (pauseExecution w)) = length (scheduledEvents w)
    ∧ pauseExecution (pauseExecution w) = pauseExecution w.
Proof.
  intros Hst Hi.
  destruct (pauseExecution_fields w Hst) as (Hs & Hev & Hht & _).
  exists (pauseEvent (clock w) e).
  destruct (pauseEvent_fields (clock w) e) as (Hr & Hc & Ht & Hstart).
  split_and!; try done.
  - by rewrite Hev, list_lookup_fmap, Hi.
  - destruct (timer e) as [h|] eqn:Hte.
    + split.
      * rewrite Hht. destruct (cancelled _ _ !! h) as [t|] eqn:Hl; [|done].
        apply cancelled_lookup in Hl as [_ Hall].
        destruct (Hall e); [|done]. by eapply list_elem_of_lookup_2.
      * unfold pauseEvent. rewrite Hte. simpl.
        destruct (startTime e) as [t|]; simpl; [|done]. by destruct (t =? 0).
    + unfold pauseEvent. by rewrite Hte.
  - by rewrite Hev, length_fmap.
  - apply pauseExecution_not_running. by rewrite Hs.
Qed.

Lemma pauseExecution_entries_witness :
  ∃ e', scheduledEvents (pauseExecution runningAt1700) !! 1%nat = Some e'
    ∧ timer e' = None
    ∧ remainingDelay e' = Z.max 0 (1000 - (1700 - 1000))
    ∧ hostTimers (pauseExecution runningAt1700) !! 2%positive = None.
Proof.
  assert (Hst : status runningAt1700 = running) by (vm_compute; reflexivity).
  assert (Hi : scheduledEvents runningAt1700 !! 1%nat
               = Some (mkScheduledEvent 1 cb_imageToWebAPI 1000 (Some 2%positive)
                         (Some 1000)))
    by (vm_compute; reflexivity).
  destruct (pauseExecution_entries runningAt1700 1 _ Hst Hi)
    as (e' & H1 & _ & _ & H4 & _ & [H6 H7] & _).
  exists e'. split_and!; [exact H1 | exact H4 | exact H7 | exact H6].
Defined.

(* ===================================================================== *)
(** ** Reset                                                              *)
(* ===================================================================== *)

Lemma scheduleAll_frame (prog : list (Callback * Z)) (w : World) :
  callStack (scheduleAll prog w) = callStack w
  ∧ webAPI (scheduleAll prog w) = webAPI w
  ∧ microTaskQueue (scheduleAll prog w) = microTaskQueue w
  ∧ callbackQueue (scheduleAll prog w) = callbackQueue w
  ∧ uniqueId (scheduleAll prog w) = uniqueId w
  ∧ output (scheduleAll prog w) = output w.
Proof.
  revert w. induction prog as [|p prog IH]; intros w; [done|].
  simpl. destruct (IH (scheduleEvent p.1 p.2 w)) as (-> & -> & -> & -> & -> & ->).
  done.
Qed.

Lemma simulateEventLoop_callStack (w : World) :
  callStack (simulateEventLoop w)
  = [mkQueueItem (uniqueId w + 1) (Some "main()") (Some ty_DOM) (Some 0)].
Proof.
  rewrite simulateEventLoop_unfold.
  destruct (reset_fields w) as (_ & _ & _ & _ & _ & Hid & _).
  destruct (reset_containers w) as (Hcc & _).
  generalize dependent (reset w). intros w0 Hid Hcc.
  destruct (scheduleAll_frame program (startMain w0)) as (-> & _).
  change (callStack (startMain w0))
    with (callStack w0
            ++ [mkQueueItem (uniqueId w0 + 1) (Some "main()") (Some ty_DOM) (Some 0)]).
  by rewrite Hcc, Hid.
Qed.

(** C2, as stated (refuted at a concrete world): [reset] does not restart
    the id counter. After one click on Run the counter stands at 2; after a
    reset it still does, and the next run labels its first frame 3. *)
Lemma reset_keeps_uniqueId :
  uniqueId Samples.started = 2
  ∧ uniqueId (reset Samples.started) = 2
  ∧ uniqueId (reset Samples.started) ≠ 0
  ∧ id <$> callStack (exec (reset Samples.started) ClickRun) = [3].
Proof. vm_compute. repeat split. discriminate. Qed.

(** C2, amended: from any state the page can reach, [reset] leaves the
    status idle, the four containers and the output log empty, the registry
    empty and no timer live; it leaves the id counter where it was, so the
    next run goes on numbering from there (its first frame gets the
    counter's value plus one). *)
Theorem reset_clears_all_but_ids (w : World) :
  reachable w →
  status (reset w) = idle
  ∧ callStack (reset w) = []
  ∧ webAPI (reset w) = []
  ∧ microTaskQueue (reset w) = []
  ∧ callbackQueue (reset w) = []
  ∧ output (reset w) = []
  ∧ scheduledEvents (reset w) = []
  ∧ hostTimers (reset w) = ∅
  ∧ uniqueId (reset w) = uniqueId w
  ∧ callStack (simulateEventLoop (reset w))
    = [mkQueueItem (uniqueId w + 1) (Some "main()") (Some ty_DOM) (Some 0)].
Proof.
  intros Hreach. apply reachable_wf in Hreach.
  destruct (reset_fields w) as (Hs & _ & Ho & Hev & Hht & Hid & _).
  destruct (reset_containers w) as (Hc1 & Hc2 & Hc3 & Hc4).
  rewrite (cancelled_owned_empty w Hreach) in Hht.
  split_and!; try done.
  by rewrite simulateEventLoop_callStack, Hid.
Qed.

Lemma reset_clears_all_but_ids_witness :
  hostTimers (reset Samples.started) = ∅
  ∧ uniqueId (reset Samples.started) = uniqueId Samples.started.
Proof.
  assert (Hreach : reachable Samples.started) by (by exists 1000, [ClickRun]).
  destruct (reset_clears_all_but_ids Samples.started Hreach)
    as (_ & _ & _ & _ & _ & _ & _ & H8 & H9 & _).
  split; [exact H8 | exact H9].
Defined.

(* ===================================================================== *)
(** ** The Run button                                                     *)
(* ===================================================================== *)

Lemma run_enabled_otherwise (w : World) :
  status w = idle ∨ status w = complete →
  runDisabled w = false ∧ exec w ClickRun = simulateEventLoop w.
Proof.
  intros Hst. unfold exec, runDisabled.
  destruct Hst as [-> | ->]; done.
Qed.

(** Timers live after a program was scheduled were live before or were
    armed by it. *)
Lemma scheduleAll_timers (prog : list (Callback * Z)) (w : World) (h : handle) (t : HostTimer) :
  hostTimers (scheduleAll prog w) !! h = Some t →
  hostTimers w !! h = Some t ∨ (nextHandle w ≤ h)%positive.
Proof.
  revert w. induction prog as [|p prog IH]; intros w Hl; [by left|].
  simpl in Hl. apply IH in Hl.
  destruct (scheduleEvent_fields p.1 p.2 w) as (_ & Hht & Hnh & _).
  rewrite Hht, Hnh in Hl. destruct Hl as [Hl | Hge]; [|right; lia].
  rewrite lookup_insert in Hl. case_decide as Hh; [right; lia | by left].
Qed.

(** An accepted click on Run leaves no timer of an earlier run alive. *)
Lemma simulateEventLoop_timers (w : World) (h : handle) (t : HostTimer) :
  wf w →
  hostTimers (simulateEventLoop w) !! h = Some t → (nextHandle w ≤ h)%positive.
Proof.
  intros Hwf. rewrite simulateEventLoop_unfold.
  destruct (reset_fields w) as (_ & _ & _ & _ & Hht & _ & Hnh & _).
  rewrite (cancelled_owned_empty w Hwf) in Hht.
  generalize dependent (reset w). intros w0 Hht Hnh Hl.
  apply scheduleAll_timers in Hl.
  change (hostTimers (startMain w0)) with (hostTimers w0) in Hl.
  change (nextHandle (startMain w0)) with (nextHandle w0) in Hl.
  rewrite Hht, Hnh, lookup_empty in Hl. by destruct Hl.
Qed.

(** C6: while the status is running or paused the Run button is disabled,
    and a click on it changes nothing: no reset, no new program, no new
    timer. A click that is accepted (status idle or complete) cancels every
    timer of the previous run before it schedules the new program: all
    timers live afterwards were armed by the new run. So the timers of at
    most one simulation are live at any time. *)
Theorem run_disabled_while_active (w : World) :
  (status w = running ∨ status w = paused →
   runDisabled w = true ∧ exec w ClickRun = w)
  ∧ (reachable w → runDisabled w = false →
     ∀ h t, hostTimers (exec w ClickRun) !! h = Some t → (nextHandle w ≤ h)%positive).
Proof.
  split.
  - intros Hst. unfold exec, runDisabled. destruct Hst as [-> | ->]; done.
  - intros Hreach Hen h t. apply reachable_wf in Hreach.
    unfold exec. rewrite Hen. by apply simulateEventLoop_timers.
Qed.

Lemma run_disabled_while_active_witness :
  status Samples.started = running
  ∧ exec Samples.started ClickRun = Samples.started
  ∧ exec runningAt1700Paused ClickRun = runningAt1700Paused.
Proof.
  assert (Hst : status Samples.started = running) by (vm_compute; reflexivity).
  assert (Hst' : status runningAt1700Paused = paused) by (vm_compute; reflexivity).
  split_and!.
  - exact Hst.
  - exact (proj2 (proj1 (run_disabled_while_active Samples.started)
                    (or_introl Hst))).
  - exact (proj2 (proj1 (run_disabled_while_active runningAt1700Paused)
                    (or_intror Hst'))).
Defined.

(* ===================================================================== *)
(** ** Pause and resume leave the containers alone                        *)
(* ===================================================================== *)

Lemma foldl_resumeEvent_shape (w : World) (l : list ScheduledEvent) :
  ∃ m' nh' l',
    foldl resumeEvent (w, []) l = (set_nextHandle nh' (set_hostTimers m' w), l')
    ∧ Forall2 (resumedFrom w) l l'.
Proof.
  induction l as [|e l IH] using rev_ind.
  - exists (hostTimers w), (nextHandle w), []. split; [by destruct w | constructor].
  - destruct IH as (m' & nh' & l' & Hfold & Hall).
    rewrite foldl_app, Hfold. simpl.
    destruct (timer e) as [h0|] eqn:Ht.
    + exists m', nh', (l' ++ [e]). split; [done|].
      apply Forall2_app; [done|]. constructor; [|constructor].
      unfold resumedFrom. by auto.
    + eexists _, _, _. split; [reflexivity|].
      apply Forall2_app; [done|]. constructor; [|constructor].
      unfold resumedFrom, dateNow. simpl. split_and!; try done. by right.
Qed.

Lemma resumeExecution_frame (w : World) :
  containers (resumeExecution w) = containers w
  ∧ uniqueId (resumeExecution w) = uniqueId w
  ∧ nextRef (resumeExecution w) = nextRef w
  ∧ clock (resumeExecution w) = clock w
  ∧ Forall2 (resumedFrom w) (scheduledEvents w) (scheduledEvents (resumeExecution w)).
Proof.
  unfold resumeExecution.
  destruct (decide (status w ≠ paused)) as [Hne|_].
  - split_and!; try done. apply Forall_Forall2_diag, Forall_forall.
    intros e _. unfold resumedFrom. by auto.
  - destruct (foldl_resumeEvent_shape (set_status running w) (scheduledEvents w))
      as (m' & nh' & l' & Hfold & Hall).
    simpl in *. rewrite Hfold. simpl. done.
Qed.

Lemma pauseExecution_frame (w : World) :
  containers (pauseExecution w) = containers w
  ∧ uniqueId (pauseExecution w) = uniqueId w
  ∧ nextRef (pauseExecution w) = nextRef w
  ∧ clock (pauseExecution w) = clock w.
Proof.
  destruct (decide (status w = running)) as [Hst|Hst].
  - destruct (pauseExecution_fields w Hst) as (_ & _ & _ & _ & ? & ? & _ & ? & ?).
    done.
  - by rewrite pauseExecution_not_running.
Qed.

Lemma paused_no_live_timer (w : World) :
  wf w → status w = paused → hostTimers w = ∅.
Proof.
  intros Hwf Hst. apply map_eq. intros h. rewrite lookup_empty.
  destruct (hostTimers w !! h) as [t|] eqn:Hl; [|done].
  destruct (wf_paused_no_timer w h t Hwf Hst Hl).
Qed.

(** C9: [pauseExecution] and [resumeExecution] leave the call stack, the
    pending operations, the microtask queue and the callback queue (and the
    id counter) as they were; and in any state the page can reach with
    status paused, no timer is live, so no scheduled closure can run: every
    event other than a click on Reset (which leaves the paused state for
    idle) keeps the four containers unchanged until the resume. *)
Theorem paused_containers_frozen (w : World) (ev : Event) :
  reachable w →
  containers (pauseExecution w) = containers w
  ∧ uniqueId (pauseExecution w) = uniqueId w
  ∧ containers (resumeExecution w) = containers w
  ∧ uniqueId (resumeExecution w) = uniqueId w
  ∧ (status w = paused →
     hostTimers w = ∅
     ∧ (∀ h, fire h w = w)
     ∧ (ev ≠ ClickReset → containers (exec w ev) = containers w)).
Proof.
  intros Hreach. apply reachable_wf in Hreach.
  destruct (pauseExecution_frame w) as (Hp1 & Hp2 & _).
  destruct (resumeExecution_frame w) as (Hr1 & Hr2 & _).
  split_and!; try done.
  intros Hst. pose proof (paused_no_live_timer w Hreach Hst) as Hnone.
  assert (Hfire : ∀ h, fire h w = w).
  { intros h. unfold fire. by rewrite Hnone, lookup_empty. }
  split_and!; try done.
  intros Hev. destruct ev as [| | |h|d|d]; simpl.
  - unfold runDisabled. by rewrite Hst.
  - unfold pauseResumeDisabled. rewrite Hst. simpl.
    destruct (decide (paused = paused)); done.
  - done.
  - by rewrite Hfire.
  - done.
  - done.
Qed.

Lemma paused_containers_frozen_witness :
  status runningAt1700Paused = paused
  ∧ hostTimers runningAt1700Paused = ∅
  ∧ containers (exec runningAt1700Paused (Fire 2%positive))
    = containers runningAt1700Paused
  ∧ containers (resumeExecution runningAt1700Paused)
    = containers runningAt1700Paused.
Proof.
  assert (Hreach : reachable runningAt1700Paused)
    by (by exists 1000, [ClickRun; Tick 700; ClickPauseResume]).
  assert (Hst : status runningAt1700Paused = paused) by (vm_compute; reflexivity).
  destruct (paused_containers_frozen runningAt1700Paused (Fire 2%positive) Hreach)
    as (_ & _ & H3 & _ & H5).
  destruct (H5 Hst) as (H6 & _ & H8).
  split_and!; [exact Hst | exact H6 | apply H8; discriminate | exact H3].
Defined.

(* ===================================================================== *)
(** ** Pause followed at once by resume                                   *)
(* ===================================================================== *)

Lemma Forall2_impl_elem_of {A B} (P Q : A → B → Prop) (l : list A) (k : list B) :
  Forall2 P l k →
  (∀ x y, x ∈ l → y ∈ k → P x y → Q x y) →
  Forall2 Q l k.
Proof.
  induction 1 as [|x y l k Hxy _ IH]; intros Himp; constructor.
  - apply Himp; [apply elem_of_cons; by left .. | done].
  - apply IH. intros x' y' Hx' Hy'. apply Himp; apply elem_of_cons; by right.
Qed.

Lemma Forall2_fmap_eq {A B C} (f : B → C) (g : A → C) (l : list A) (k : list B) :
  Forall2 (λ x y, f y = g x) l k → f <$> k = g <$> l.
Proof. induction 1 as [|x y l k Hxy _ IH]; [done|]. by rewrite !fmap_cons, Hxy, IH. Qed.

(** With no time elapsed since it was armed, the pause computation leaves
    the delay of an event as it is. *)
Lemma pauseEvent_no_elapse (now : Z) (e : ScheduledEvent) :
  0 ≤ remainingDelay e → startTime e = Some now →
  remainingDelay (pauseEvent now e) = remainingDelay e.
Proof.
  intros Hd Hs. unfold pauseEvent. destruct (timer e); [|done]. simpl.
  rewrite Hs. simpl. destruct (now =? 0); simpl; lia.
Qed.

(** C10: in any state the page can reach with status running, if no time
    has passed since the registered events were armed, a pause followed at
    once by a resume gives back a running page with the same events in the
    same order (same identities, same callbacks), each with the remaining
    delay it had before, each armed again at the current time under a live
    timer set for that delay; the four containers are untouched. *)
Theorem pause_resume_roundtrip (w : World) :
  reachable w →
  status w = running →
  (∀ e, e ∈ scheduledEvents w → startTime e = Some (clock w)) →
  let w' := resumeExecution (pauseExecution w) in
  status w' = running
  ∧ ref <$> scheduledEvents w' = ref <$> scheduledEvents w
  ∧ callback <$> scheduledEvents w' = callback <$> scheduledEvents w
  ∧ remainingDelay <$> scheduledEvents w' = remainingDelay <$> scheduledEvents w
  ∧ Forall (λ e', startTime e' = Some (clock w)
              ∧ ∃ h', timer e' = Some h'
                  ∧ hostTimers w' !! h'
                    = Some (mkHostTimer (ref e') (callback e') (remainingDelay e')))
      (scheduledEvents w')
  ∧ containers w' = containers w.
Proof.
  intros Hreach Hst Hzero. apply reachable_wf in Hreach.
  pose proof (wf_pauseExecution w Hreach) as Hwf1.
  destruct (pauseExecution_fields w Hst)
    as (Hs1 & Hev1 & _ & _ & Hc1 & _ & _ & _ & Hck1).
  generalize dependent (pauseExecution w). intros w1 Hwf1 Hs1 Hev1 Hc1 Hck1.
  destruct (resumeExecution_fields w1 Hs1 (wf_live_fresh w1 Hwf1))
    as (Hs2 & _ & Hc2 & _ & _ & _ & _ & Hall & _).
  generalize dependent (resumeExecution w1). intros w2 Hs2 Hc2 Hall.
  rewrite Hev1, Forall2_fmap_l in Hall.
  assert (Hall' : Forall2 (λ e e',
            ∃ h', e' = mkScheduledEvent (ref e) (callback e) (remainingDelay e)
                         (Some h') (Some (clock w))
                  ∧ hostTimers w2 !! h'
                    = Some (mkHostTimer (ref e) (callback e) (remainingDelay e)))
            (scheduledEvents w) (scheduledEvents w2)).
  { eapply Forall2_impl_elem_of; [exact Hall|].
    intros e e' He _ HP. unfold compose, rearmed in HP.
    destruct (pauseEvent_fields (clock w) e) as (Hr & Hc & Ht & _).
    rewrite Ht, Hr, Hc, Hck1 in HP.
    rewrite (pauseEvent_no_elapse (clock w) e) in HP;
      [|by apply Hreach|by apply Hzero].
    destruct HP as (h' & -> & _ & Hl). by exists h'. }
  simpl. split_and!.
  - done.
  - apply Forall2_fmap_eq. eapply Forall2_impl; [exact Hall'|].
    by intros e e' (h' & -> & _).
  - apply Forall2_fmap_eq. eapply Forall2_impl; [exact Hall'|].
    by intros e e' (h' & -> & _).
  - apply Forall2_fmap_eq. eapply Forall2_impl; [exact Hall'|].
    by intros e e' (h' & -> & _).
  - apply Forall_forall. intros e' He'.
    destruct (Forall2_elem_of_r _ _ _ _ Hall' He') as (e & _ & h' & -> & Hl).
    split; [done|]. by exists h'.
  - by rewrite Hc2.
Qed.

Lemma pause_resume_roundtrip_witness :
  status Samples.started = running
  ∧ remainingDelay <$> scheduledEvents (resumeExecution (pauseExecution Samples.started))
    = remainingDelay <$> scheduledEvents Samples.started
  ∧ ref <$> scheduledEvents (resumeExecution (pauseExecution Samples.started))
    = ref <$> scheduledEvents Samples.started.
Proof.
  assert (Hreach : reachable Samples.started) by (by exists 1000, [ClickRun]).
  assert (Hst : status Samples.started = running) by (vm_compute; reflexivity).
  assert (Hzero : ∀ e, e ∈ scheduledEvents Samples.started →
                       startTime e = Some (clock Samples.started)).
  { apply Forall_forall. vm_compute. repeat constructor. }
  destruct (pause_resume_roundtrip Samples.started Hreach Hst Hzero)
    as (_ & H2 & _ & H4 & _).
  split_and!; [exact Hst | exact H4 | exact H2].
Defined.

(* ===================================================================== *)
(** ** Remaining delays along a run                                       *)
(* ===================================================================== *)

Section Delays.

Implicit Types (w : World) (e : ScheduledEvent) (ev : Event).


Lemma scheduleAll_events prog w :
  Forall (λ p, 0 ≤ p.2) prog →
  (nextRef w ≤ nextRef (scheduleAll prog w))%nat
  ∧ clock (scheduleAll prog w) = clock w
  ∧ ∀ e', e' ∈ scheduledEvents (scheduleAll prog w) →
      e' ∈ scheduledEvents w ∨ freshEvent w e'.
Proof.
  intros Hprog. revert w. induction Hprog as [|p prog Hp _ IH]; intros w.
  - simpl. split_and!; [lia|done|by left].
  - simpl. destruct (IH (scheduleEvent p.1 p.2 w)) as (Hnr & Hck & Hev).
    destruct (scheduleEvent_fields p.1 p.2 w) as (Hev1 & _ & _ & Hnr1 & Hck1 & _).
    rewrite Hnr1 in Hnr. rewrite Hck1 in Hck.
    split_and!; [lia|done|].
    intros e' He'. destruct (Hev e' He') as [Hold | (Hr & Hd & Hs)].
    + rewrite Hev1 in Hold. apply elem_of_app in Hold as [Hold | Hnew]; [by left|].
      apply list_elem_of_singleton in Hnew. subst e'. right.
      unfold freshEvent. simpl. split_and!; [lia|done|done].
    + right. unfold freshEvent. rewrite Hnr1 in Hr. rewrite Hck1 in Hs.
      split_and!; [lia|done|done].
Qed.






End Delays.




(* ===================================================================== *)
(** ** Item ids                                                           *)
(* ===================================================================== *)

Section Ids.

Implicit Types (w : World) (item : QueueItem).

Lemma evolves_same w w' :
  allItems w' = allItems w → uniqueId w' = uniqueId w → evolves w w'.
Proof.
  intros Hit Hid. split; [lia|].
  exists (allItems w), []. rewrite Hit, app_nil_r. split_and!; try done.
  simpl. lia.
Qed.

Lemma evolves_drop w w' :
  allItems w' `sublist_of` allItems w → uniqueId w' = uniqueId w → evolves w w'.
Proof.
  intros Hsub Hid. split; [lia|].
  exists (allItems w'), []. rewrite app_nil_r. split_and!; try done.
  simpl. lia.
Qed.

Lemma evolves_add w w' item :
  allItems w' ≡ₚ allItems w ++ [item] →
  uniqueId w ≤ id item < uniqueId w' → evolves w w'.
Proof.
  intros Hperm Hid. split; [lia|].
  exists (allItems w), [item]. split_and!; try done.
  by constructor.
Qed.

Lemma evolves_fresh w w' :
  evolves w w' →
  uniqueId w ≤ uniqueId w'
  ∧ ∀ item, item ∈ allItems w' →
      item ∈ allItems w ∨ uniqueId w ≤ id item < uniqueId w'.
Proof.
  intros (Hle & kept & new & Hperm & Hsub & _ & Hnew). split; [done|].
  intros item Hin. rewrite Hperm in Hin. apply elem_of_app in Hin as [Hin | Hin].
  - left. by eapply elem_of_sublist.
  - right. by eapply Forall_forall in Hnew.
Qed.

Lemma rtc_evolves_fresh w w' :
  rtc evolves w w' →
  uniqueId w ≤ uniqueId w'
  ∧ ∀ item, item ∈ allItems w' →
      item ∈ allItems w ∨ uniqueId w ≤ id item < uniqueId w'.
Proof.
  induction 1 as [w | w w1 w2 Hstep _ IH].
  - split; [lia|]. intros item Hin. by left.
  - destruct (evolves_fresh w w1 Hstep) as [Hle1 Hin1].
    destruct IH as [Hle2 Hin2]. split; [lia|].
    intros item Hin. destruct (Hin2 item Hin) as [Hin' | Hnew]; [|right; lia].
    destruct (Hin1 item Hin') as [Hold | Hnew]; [by left | right; lia].
Qed.

Lemma idsOk_evolves w w' : idsOk w → evolves w w' → idsOk w'.
Proof.
  intros (Hpos & Hnd & Hbound) (Hle & kept & new & Hperm & Hsub & Hlen & Hnew).
  split_and!; [lia| |].
  - rewrite Hperm, fmap_app. apply NoDup_app. split_and!.
    + eapply sublist_NoDup; [exact Hnd|]. by apply fmap_sublist.
    + intros n Hn Hn'.
      apply list_elem_of_fmap in Hn as (x & -> & Hx).
      apply list_elem_of_fmap in Hn' as (y & Heq & Hy).
      pose proof (Hbound x (elem_of_sublist _ _ _ Hx Hsub)).
      eapply Forall_forall in Hnew; [|exact Hy]. lia.
    + destruct new as [|x [|y new]]; [constructor|apply NoDup_singleton|].
      simpl in Hlen. lia.
  - intros item Hin. rewrite Hperm in Hin.
    apply elem_of_app in Hin as [Hin | Hin].
    + pose proof (Hbound item (elem_of_sublist _ _ _ Hin Hsub)). lia.
    + eapply Forall_forall in Hnew; [|exact Hin]. lia.
Qed.

Lemma idsOk_rtc w w' : idsOk w → rtc evolves w w' → idsOk w'.
Proof. intros Hok Hrtc. induction Hrtc; eauto using idsOk_evolves. Qed.

Lemma rtc_evolves_same w w1 w2 :
  rtc evolves w w1 → allItems w2 = allItems w1 → uniqueId w2 = uniqueId w1 →
  rtc evolves w w2.
Proof. intros Hrtc Hit Hid. eapply rtc_r; [exact Hrtc|]. by apply evolves_same. Qed.

(** *** The elementary container operations *)

Lemma evolves_addToCallStack o w : evolves w (addToCallStack o w).
Proof.
  apply (evolves_add _ _ (spreadWithId o (uniqueId w))).
  - unfold allItems. simpl. solve_Permutation.
  - destruct o; simpl; lia.
Qed.

Lemma evolves_pushCall txt ty dur w : rtc evolves w (pushCall txt ty dur w).
Proof.
  unfold pushCall. simpl. eapply rtc_l; [|apply rtc_once, evolves_addToCallStack].
  split; [simpl; lia|]. exists (allItems w), []. rewrite app_nil_r.
  split_and!; try done. simpl. lia.
Qed.

Lemma evolves_pushWebAPI txt ty dur w : evolves w (pushWebAPI txt ty dur w).
Proof.
  apply (evolves_add _ _ (mkQueueItem (uniqueId w) (Some txt) (Some ty) (Some dur))).
  - unfold allItems. simpl. solve_Permutation.
  - simpl. lia.
Qed.

Lemma evolves_pushMicrotask txt ty dur w : evolves w (pushMicrotask txt ty dur w).
Proof.
  apply (evolves_add _ _ (mkQueueItem (uniqueId w) (Some txt) (Some ty) (Some dur))).
  - unfold allItems. simpl. solve_Permutation.
  - simpl. lia.
Qed.

Lemma evolves_pushCallback txt ty dur w : evolves w (pushCallback txt ty dur w).
Proof.
  apply (evolves_add _ _ (mkQueueItem (uniqueId w) (Some txt) (Some ty) (Some dur))).
  - unfold allItems. simpl. solve_Permutation.
  - simpl. lia.
Qed.

Lemma evolves_removeFromCallStack txt w : evolves w (removeFromCallStack txt w).
Proof.
  apply evolves_drop; [|done]. unfold allItems. simpl.
  apply sublist_app; [apply sublist_filter | done].
Qed.

Lemma evolves_removeWebAPIByType ty w : evolves w (removeWebAPIByType ty w).
Proof.
  apply evolves_drop; [|done]. unfold allItems. simpl.
  apply sublist_app; [done|]. apply sublist_app; [apply sublist_filter | done].
Qed.

Lemma evolves_drainMicrotasks w : evolves w (drainMicrotasks w).2.
Proof.
  apply evolves_drop; [|done]. unfold allItems. simpl.
  apply sublist_app; [done|]. apply sublist_app; [done|].
  apply sublist_inserts_l. done.
Qed.

Lemma evolves_dequeueOneMacrotask w : evolves w (dequeueOneMacrotask w).2.
Proof.
  apply evolves_drop; [|done]. unfold allItems. simpl.
  do 3 (apply sublist_app; [done|]).
  destruct (callbackQueue w); [done|]. simpl. by apply sublist_cons.
Qed.

Lemma evolves_clearCallStack w : evolves w (set_callStack [] w).
Proof.
  apply evolves_drop; [|done]. unfold allItems. simpl. by apply sublist_inserts_l.
Qed.

Lemma rtc_evolves_log line w w1 :
  rtc evolves w w1 → rtc evolves w (log line w1).
Proof. intros Hrtc. by apply (rtc_evolves_same w w1). Qed.

Lemma evolves_runCallback cb w : rtc evolves w (runCallback cb w).
Proof.
  destruct cb; simpl.
  - apply rtc_evolves_log, evolves_pushCall.
  - apply rtc_evolves_log.
    eapply rtc_l; [apply evolves_removeFromCallStack|].
    apply rtc_once, evolves_pushWebAPI.
  - apply rtc_evolves_log, evolves_pushCall.
  - apply rtc_evolves_log.
    eapply rtc_l; [apply evolves_removeFromCallStack|].
    apply rtc_once, evolves_pushWebAPI.
  - apply (rtc_evolves_same w
             (log "6. Creating Promise" (pushCall "Promise.resolve()" ty_promise 0 w)));
      [|done..].
    apply rtc_evolves_log, evolves_pushCall.
  - apply rtc_evolves_log, rtc_once, evolves_pushMicrotask.
  - apply rtc_evolves_log.
    eapply rtc_l; [apply evolves_removeWebAPIByType|].
    apply rtc_once, evolves_pushCallback.
  - apply rtc_evolves_log.
    eapply rtc_l; [apply evolves_removeWebAPIByType|].
    apply rtc_once, evolves_pushCallback.
  - apply rtc_evolves_log.
    eapply rtc_l; [apply evolves_drainMicrotasks|].
    apply rtc_once, evolves_addToCallStack.
  - apply rtc_evolves_log.
    eapply rtc_l; [apply evolves_dequeueOneMacrotask|].
    apply rtc_once, evolves_addToCallStack.
  - apply rtc_evolves_log.
    eapply rtc_l; [apply evolves_dequeueOneMacrotask|].
    apply rtc_once, evolves_addToCallStack.
  - apply rtc_evolves_log.
    apply (rtc_evolves_same w (set_callStack [] w)); [|done..].
    apply rtc_once, evolves_clearCallStack.
Qed.

Lemma evolves_startMain w : rtc evolves w (startMain w).
Proof.
  unfold startMain. apply rtc_evolves_log.
  eapply rtc_l; [|apply evolves_pushCall]. by apply evolves_same.
Qed.

Lemma evolves_simulateEventLoop w : rtc evolves w (simulateEventLoop w).
Proof.
  rewrite simulateEventLoop_unfold.
  assert (Hreset : evolves w (reset w)).
  { destruct (reset_containers w) as (Hc1 & Hc2 & Hc3 & Hc4).
    destruct (reset_fields w) as (_ & _ & _ & _ & _ & Hid & _).
    apply evolves_drop; [|done]. unfold allItems, containers.
    rewrite Hc1, Hc2, Hc3, Hc4. apply sublist_nil_l. }
  generalize dependent (reset w). intros w0 Hreset.
  eapply rtc_l; [exact Hreset|].
  apply (rtc_evolves_same w0 (startMain w0)); [apply evolves_startMain| |].
  - destruct (scheduleAll_frame program (startMain w0)) as (H1 & H2 & H3 & H4 & _).
    unfold allItems, containers. by rewrite H1, H2, H3, H4.
  - by destruct (scheduleAll_frame program (startMain w0)) as (_ & _ & _ & _ & -> & _).
Qed.

Lemma evolves_exec w ev : rtc evolves w (exec w ev).
Proof.
  destruct ev as [| | |h|d|d]; unfold exec.
  - destruct (runDisabled w); [done|]. apply evolves_simulateEventLoop.
  - destruct (pauseResumeDisabled w); [done|].
    apply rtc_once, evolves_same.
    + destruct (decide (status w = paused)).
      * destruct (resumeExecution_frame w) as (Hc & _).
        unfold allItems. by rewrite Hc.
      * destruct (pauseExecution_frame w) as (Hc & _).
        unfold allItems. by rewrite Hc.
    + destruct (decide (status w = paused)).
      * by destruct (resumeExecution_frame w) as (_ & -> & _).
      * by destruct (pauseExecution_frame w) as (_ & -> & _).
  - destruct (reset_containers w) as (Hc1 & Hc2 & Hc3 & Hc4).
    destruct (reset_fields w) as (_ & _ & _ & _ & _ & Hid & _).
    apply rtc_once, evolves_drop; [|done]. unfold allItems, containers.
    rewrite Hc1, Hc2, Hc3, Hc4. apply sublist_nil_l.
  - unfold fire. destruct (hostTimers w !! h) as [t|]; [|done].
    apply (rtc_evolves_same w (runCallback (fires t) (clearTimeout h w))); [|done..].
    eapply rtc_l; [|apply evolves_runCallback]. by apply evolves_same.
  - apply rtc_once. by apply evolves_same.
  - apply rtc_once. by apply evolves_same.
Qed.

Lemma evolves_run evs w : rtc evolves w (run w evs).
Proof.
  revert w. induction evs as [|ev evs IH]; intros w; [done|].
  simpl. eapply rtc_trans; [apply evolves_exec | apply IH].
Qed.

Lemma idsOk_initial t0 : idsOk (initial t0).
Proof.
  split_and!; [done|constructor|]. intros item Hin. by apply not_elem_of_nil in Hin.
Qed.

End Ids.

(** *** The counter as a JS number *)

Lemma roundDouble_exact (z : Z) : Z.abs z ≤ 2 ^ 53 → roundDouble z = z.
Proof.
  intros Hz. unfold roundDouble.
  destruct (decide (Z.abs z = 2 ^ 53)) as [Heq | Hne].
  - destruct (Z.abs_spec z) as [[_ Habs] | [_ Habs]].
    + assert (z = 2 ^ 53) as -> by lia. by vm_compute.
    + assert (z = - 2 ^ 53) as -> by lia. by vm_compute.
  - destruct (decide (Z.log2 (Z.abs z) - 52 ≤ 0)) as [_ | Hbig]; [done|].
    exfalso. apply Hbig.
    destruct (decide (Z.abs z = 0)) as [-> | Hnz]; [by vm_compute|].
    assert (Z.log2 (Z.abs z) < 53); [|lia].
    apply Z.log2_lt_pow2; lia.
Qed.

(** Below 2^53 the increment [uniqueId++] is exact, so the counter of the
    model is the counter of the page; at 2^53 a JS number stops advancing,
    and the model is no longer the page. *)
Lemma getNextId_exact (w : World) :
  0 ≤ uniqueId w < 2 ^ 53 →
  uniqueId (getNextId w).2 = jsAdd (uniqueId w) 1.
Proof. intros Hu. simpl. unfold jsAdd. rewrite roundDouble_exact; lia. Qed.

Lemma jsAdd_stuck : jsAdd (2 ^ 53) 1 = 2 ^ 53.
Proof. by vm_compute. Qed.

(** Rounding to 53 bits, ties to even, on a few integers around 2^53 and
    2^54. *)
Lemma roundDouble_examples :
  roundDouble (2 ^ 53 + 1) = 2 ^ 53
  ∧ roundDouble (2 ^ 53 + 2) = 2 ^ 53 + 2
  ∧ roundDouble (2 ^ 53 + 3) = 2 ^ 53 + 4
  ∧ roundDouble (2 ^ 54 + 2) = 2 ^ 54
  ∧ roundDouble (2 ^ 54 + 3) = 2 ^ 54 + 4
  ∧ roundDouble (2 ^ 54 + 6) = 2 ^ 54 + 8
  ∧ roundDouble (- (2 ^ 53 + 1)) = - 2 ^ 53.
Proof. by vm_compute. Qed.

(** X1: in every state the page can reach with the id counter still below
    2^53 (the range in which [uniqueId++] counts exactly), the items shown
    in the four containers carry pairwise distinct ids (within each
    container and across containers), all of them at least 0 and below the
    id counter; the keyed [each] blocks of the template never meet a
    duplicate key. Every increment the counter went through was exact. *)
Theorem rendered_ids_distinct (w : World) :
  reachable w →
  uniqueId w < 2 ^ 53 →
  NoDup (id <$> allItems w)
  ∧ NoDup (id <$> callStack w)
  ∧ NoDup (id <$> webAPI w)
  ∧ NoDup (id <$> microTaskQueue w)
  ∧ NoDup (id <$> callbackQueue w)
  ∧ (∀ item, item ∈ allItems w → 0 ≤ id item < uniqueId w)
  ∧ (∀ n, 0 ≤ n < uniqueId w → jsAdd n 1 = n + 1).
Proof.
  intros (t0 & evs & ->) Hlt.
  destruct (idsOk_rtc _ _ (idsOk_initial t0) (evolves_run evs (initial t0)))
    as (_ & Hnd & Hbound).
  generalize dependent (run (initial t0) evs). intros w Hlt Hnd Hbound.
  split_and!; try done.
  5: { intros n Hn. unfold jsAdd. rewrite roundDouble_exact; lia. }
  all: unfold allItems, containers in Hnd; rewrite !fmap_app in Hnd.
  all: repeat (apply NoDup_app in Hnd as (? & _ & Hnd)); done.
Qed.

Lemma rendered_ids_distinct_witness :
  NoDup (id <$> callStack
           (run (initial 1000) [ClickRun; Fire 1%positive; Fire 3%positive]))
  ∧ NoDup (id <$> allItems
             (run (initial 1000) [ClickRun; Fire 1%positive; Fire 3%positive])).
Proof.
  assert (Hreach : reachable
            (run (initial 1000) [ClickRun; Fire 1%positive; Fire 3%positive]))
    by (by eexists _, _).
  assert (Hlt : uniqueId
            (run (initial 1000) [ClickRun; Fire 1%positive; Fire 3%positive])
            < 2 ^ 53)
    by (vm_compute; reflexivity).
  destruct (rendered_ids_distinct _ Hreach Hlt) as (H1 & H2 & _).
  split; [exact H2 | exact H1].
Defined.

(** X2: ids are never reused while the counter counts exactly. Along any
    sequence of events (a reset or a new run included) that starts with a
    counter that is not negative and ends with the counter below 2^53, the
    id counter never decreases, every increment it went through was exact,
    and every item shown afterwards either was already shown before or
    carries an id that the counter had not yet reached. *)
Theorem ids_never_reused (w : World) (evs : list Event) :
  0 ≤ uniqueId w →
  uniqueId (run w evs) < 2 ^ 53 →
  uniqueId w ≤ uniqueId (run w evs)
  ∧ (∀ n, uniqueId w ≤ n < uniqueId (run w evs) → jsAdd n 1 = n + 1)
  ∧ ∀ item, item ∈ allItems (run w evs) →
      item ∈ allItems w ∨ uniqueId w ≤ id item < uniqueId (run w evs).
Proof.
  intros Hpos Hlt.
  destruct (rtc_evolves_fresh w (run w evs) (evolves_run evs w)) as [Hle Hfresh].
  split_and!; [done| |done].
  intros n Hn. unfold jsAdd. rewrite roundDouble_exact; lia.
Qed.

Lemma ids_never_reused_witness :
  uniqueId Samples.started
  ≤ uniqueId (run Samples.started [Fire 1%positive; ClickReset; ClickRun])
  ∧ Forall (λ item,
       item ∈ allItems Samples.started
       ∨ uniqueId Samples.started ≤ id item
         < uniqueId (run Samples.started [Fire 1%positive; ClickReset; ClickRun]))
      (allItems (run Samples.started [Fire 1%positive; ClickReset; ClickRun])).
Proof.
  assert (Hpos : 0 ≤ uniqueId Samples.started) by (vm_compute; discriminate).
  assert (Hlt : uniqueId (run Samples.started [Fire 1%positive; ClickReset; ClickRun])
                < 2 ^ 53)
    by (vm_compute; reflexivity).
  destruct (ids_never_reused Samples.started
              [Fire 1%positive; ClickReset; ClickRun] Hpos Hlt) as (H1 & _ & H3).
  split; [exact H1 | by apply Forall_forall].
Defined.

(* ===================================================================== *)
(** ** The run status                                                     *)
(* ===================================================================== *)

Section StatusMachine.

Implicit Types (w : World) (ev : Event).

Lemma runCallback_status_cases cb w :
  status (runCallback cb w) = status w
  ∨ (cb = cb_complete ∧ status (runCallback cb w) = complete).
Proof. destruct cb; simpl; auto. Qed.

Lemma fire_status h w :
  status (fire h w) = status w
  ∨ (is_Some (hostTimers w !! h) ∧ status (fire h w) = complete).
Proof.
  unfold fire. destruct (hostTimers w !! h) as [t|] eqn:Hl; [|by left].
  destruct (runCallback_status_cases (fires t) (clearTimeout h w)) as [Hs | [_ Hs]].
  - left. exact Hs.
  - right. split; [by eexists | exact Hs].
Qed.

Lemma pauseExecution_status w :
  status w = running → status (pauseExecution w) = paused.
Proof. intros Hst. by destruct (pauseExecution_fields w Hst) as (-> & _). Qed.

Lemma resumeExecution_status w :
  status w = paused → status (resumeExecution w) = running.
Proof.
  intros Hst. unfold resumeExecution.
  destruct (decide (status w ≠ paused)) as [Hne|_]; [done|].
  destruct (foldl_resumeEvent_shape (set_status running w) (scheduledEvents w))
    as (m' & nh' & l' & Hfold & _).
  simpl in *. by rewrite Hfold.
Qed.

(** While the page is idle nothing is scheduled. *)
Lemma idle_exec w ev :
  wf w → (status w = idle → scheduledEvents w = []) →
  status (exec w ev) = idle → scheduledEvents (exec w ev) = [].
Proof.
  intros Hwf Hidle. destruct ev as [| | |h|d|d]; unfold exec.
  - destruct (runDisabled w); [done|].
    destruct (wf_simulateEventLoop w Hwf) as [_ Hs]. congruence.
  - destruct (pauseResumeDisabled w); [done|].
    destruct (decide (status w = paused)) as [Hp|Hp].
    + rewrite (resumeExecution_status w Hp). discriminate.
    + destruct (decide (status w = running)) as [Hr|Hr].
      * rewrite (pauseExecution_status w Hr). discriminate.
      * by rewrite pauseExecution_not_running.
  - intros _. by destruct (reset_fields w) as (_ & _ & _ & -> & _).
  - destruct (hostTimers w !! h) as [t|] eqn:Hl; [|unfold fire; by rewrite Hl].
    destruct (wf_live_owned w Hwf h t Hl) as (e & He & _).
    assert (Hni : status w ≠ idle).
    { intros Hi. rewrite (Hidle Hi) in He. by apply not_elem_of_nil in He. }
    destruct (fire_status h w) as [-> | [_ ->]]; [done | discriminate].
  - done.
  - done.
Qed.

Lemma reachable_idle w :
  reachable w → status w = idle → scheduledEvents w = [].
Proof.
  intros (t0 & evs & ->).
  assert (Hgen : ∀ w0, wf w0 → (status w0 = idle → scheduledEvents w0 = []) →
            status (run w0 evs) = idle → scheduledEvents (run w0 evs) = []).
  { induction evs as [|ev evs IH]; intros w0 Hwf Hidle; [done|].
    simpl. apply IH; [by apply wf_exec | by apply idle_exec]. }
  apply Hgen; [apply wf_initial | done].
Qed.

End StatusMachine.

(** X3: the run status moves only along the arrows of the controller. In
    any state the page can reach, an event either leaves the status as it
    is, or it is a click on Run taking idle or complete to running, a click
    on Pause taking running to paused, a click on Resume taking paused to
    running, a click on Reset leading to idle, or a timer firing that takes
    running to complete. In particular paused is entered only from running,
    and nothing completes while the page is idle or paused. *)
Theorem status_transitions (w : World) (ev : Event) :
  reachable w →
  status (exec w ev) = status w
  ∨ (ev = ClickRun ∧ (status w = idle ∨ status w = complete)
     ∧ status (exec w ev) = running)
  ∨ (ev = ClickPauseResume ∧ status w = running ∧ status (exec w ev) = paused)
  ∨ (ev = ClickPauseResume ∧ status w = paused ∧ status (exec w ev) = running)
  ∨ (ev = ClickReset ∧ status (exec w ev) = idle)
  ∨ (∃ h, ev = Fire h ∧ status w = running ∧ status (exec w ev) = complete).
Proof.
  intros Hreach. pose proof (reachable_wf w Hreach) as Hwf.
  pose proof (reachable_idle w Hreach) as Hidle.
  destruct ev as [| | |h|d|d]; unfold exec.
  - destruct (runDisabled w) eqn:Hdis; [by left|].
    right. left. split_and!; [done| |by apply wf_simulateEventLoop].
    unfold runDisabled in Hdis. destruct (status w); simpl in Hdis; auto; done.
  - destruct (pauseResumeDisabled w); [by left|].
    destruct (decide (status w = paused)) as [Hp|Hp].
    + do 3 right. left. split_and!; [done..|by apply resumeExecution_status].
    + destruct (decide (status w = running)) as [Hr|Hr].
      * do 2 right. left. split_and!; [done..|by apply pauseExecution_status].
      * left. by rewrite pauseExecution_not_running.
  - do 4 right. left. split; [done|]. by destruct (reset_fields w) as (-> & _).
  - destruct (fire_status h w) as [Hs | [[t Hl] Hs]]; [by left|].
    destruct (status w) eqn:Hst.
    + destruct (wf_live_owned w Hwf h t Hl) as (e & He & _).
      rewrite (Hidle eq_refl) in He. by apply not_elem_of_nil in He.
    + do 5 right. by exists h.
    + destruct (wf_paused_no_timer w h t Hwf Hst Hl).
    + by left.
  - by left.
  - by left.
Qed.

Lemma status_transitions_witness :
  status (exec Samples.started ClickPauseResume) = status Samples.started
  ∨ (ClickPauseResume = ClickRun
     ∧ (status Samples.started = idle ∨ status Samples.started = complete)
     ∧ status (exec Samples.started ClickPauseResume) = running)
  ∨ (ClickPauseResume = ClickPauseResume ∧ status Samples.started = running
     ∧ status (exec Samples.started ClickPauseResume) = paused)
  ∨ (ClickPauseResume = ClickPauseResume ∧ status Samples.started = paused
     ∧ status (exec Samples.started ClickPauseResume) = running)
  ∨ (ClickPauseResume = ClickReset
     ∧ status (exec Samples.started ClickPauseResume) = idle)
  ∨ (∃ h, ClickPauseResume = Fire h ∧ status Samples.started = running
        ∧ status (exec Samples.started ClickPauseResume) = complete).
Proof.
  assert (Hreach : reachable Samples.started) by (by exists 1000, [ClickRun]).
  exact (status_transitions Samples.started ClickPauseResume Hreach).
Defined.

(* ===================================================================== *)
(** ** Timers and the events that own them                                *)
(* ===================================================================== *)

Section Ownership.

Implicit Types (w : World) (e : ScheduledEvent) (h : handle).

Lemma armedOk_same w w' :
  scheduledEvents w' = scheduledEvents w → hostTimers w' = hostTimers w →
  armedOk w → armedOk w'.
Proof. unfold armedOk. intros -> ->. done. Qed.

Lemma armedOk_no_timers w : hostTimers w = ∅ → armedOk w.
Proof. intros Hht h t e Hl. by rewrite Hht, lookup_empty in Hl. Qed.

Lemma armedOk_scheduleEvent cb delay w :
  wf w → armedOk w → armedOk (scheduleEvent cb delay w).
Proof.
  intros Hwf Hok h t e.
  destruct (scheduleEvent_fields cb delay w) as (-> & -> & _).
  intros Hl He Ht. rewrite lookup_insert in Hl. case_decide as Hh.
  - injection Hl as <-. subst h. apply elem_of_app in He as [He | He].
    + destruct (wf_armed_live w Hwf e _ He Ht) as (t' & Hl' & _).
      pose proof (wf_live_fresh w Hwf _ t' Hl'). lia.
    + apply list_elem_of_singleton in He. by subst e.
  - apply elem_of_app in He as [He | He]; [by eapply Hok|].
    apply list_elem_of_singleton in He. subst e. simpl in Ht. congruence.
Qed.

Lemma armedOk_scheduleAll prog w :
  Forall (λ p, 0 ≤ p.2) prog → wf w → status w ≠ paused → armedOk w →
  armedOk (scheduleAll prog w).
Proof.
  intros Hprog. revert w.
  induction Hprog as [|p prog Hp _ IH]; intros w Hwf Hst Hok; [done|].
  simpl. apply IH; [by apply wf_scheduleEvent | done | by apply armedOk_scheduleEvent].
Qed.

Lemma armedOk_simulateEventLoop w : wf w → armedOk (simulateEventLoop w).
Proof.
  intros Hwf. rewrite simulateEventLoop_unfold.
  destruct (reset_fields w) as (_ & _ & _ & Hev & Hht & _).
  rewrite (cancelled_owned_empty w Hwf) in Hht.
  generalize dependent (reset w). intros w0 Hev Hht.
  apply (armedOk_scheduleAll program (startMain w0) program_delays).
  - by apply wf_no_events.
  - done.
  - by apply armedOk_no_timers.
Qed.

Lemma armedOk_resumeExecution w : wf w → armedOk w → armedOk (resumeExecution w).
Proof.
  intros Hwf Hok.
  destruct (decide (status w = paused)) as [Hst|Hst];
    [|by rewrite resumeExecution_not_paused].
  destruct (resumeExecution_fields w Hst (wf_live_fresh w Hwf))
    as (_ & _ & _ & _ & _ & _ & _ & Hall & _).
  generalize dependent (resumeExecution w). intros w' Hall.
  intros h t e' Hl He' Ht.
  destruct (Forall2_elem_of_r _ _ _ _ Hall He') as (e & He & HP).
  unfold rearmed in HP. rewrite (wf_paused w Hwf Hst e He) in HP.
  destruct HP as (h' & -> & _ & Hl'). simpl in *.
  injection Ht as ->. congruence.
Qed.

Lemma armedOk_detach h r w : armedOk w → armedOk (detach h r w).
Proof.
  intros Hok h' t' e Hl He Ht. simpl in *.
  apply list_elem_of_filter in He as [_ He].
  rewrite lookup_delete in Hl. case_decide; [done|]. by eapply Hok.
Qed.

Lemma armedOk_runCallback cb w : wf w → armedOk w → armedOk (runCallback cb w).
Proof.
  intros Hwf Hok. destruct (decide (cb = cb_createPromise)) as [-> | Hcp].
  - simpl. apply armedOk_scheduleEvent; [|done].
    by eapply wf_same; [| |exact Hwf].
  - pose proof (runCallback_timerState cb w Hcp) as Hts.
    unfold timerState in Hts. injection Hts as Hev Hht _ _ _.
    by apply (armedOk_same w).
Qed.

Lemma armedOk_exec w ev : wf w → armedOk w → armedOk (exec w ev).
Proof.
  intros Hwf Hok. destruct ev as [| | |h|d|d]; unfold exec.
  - destruct (runDisabled w); [done|]. by apply armedOk_simulateEventLoop.
  - destruct (pauseResumeDisabled w); [done|].
    destruct (decide (status w = paused)); [by apply armedOk_resumeExecution|].
    destruct (decide (status w = running)) as [Hr|Hr];
      [|by rewrite pauseExecution_not_running].
    apply armedOk_no_timers.
    destruct (pauseExecution_fields w Hr) as (_ & _ & -> & _).
    by apply cancelled_owned_empty.
  - apply armedOk_no_timers.
    destruct (reset_fields w) as (_ & _ & _ & _ & -> & _).
    by apply cancelled_owned_empty.
  - destruct (hostTimers w !! h) as [t|] eqn:Hl; [|unfold fire; by rewrite Hl].
    destruct (wf_live_owned w Hwf h t Hl) as (e0 & He0 & Hr0 & _).
    rewrite (fire_detach h t w Hl); [|rewrite <- Hr0; by apply Hwf].
    apply armedOk_runCallback; [by apply wf_detach | by apply armedOk_detach].
  - done.
  - done.
Qed.

Lemma reachable_armedOk w : reachable w → armedOk w.
Proof.
  intros (t0 & evs & ->).
  assert (Hgen : ∀ w0, wf w0 → armedOk w0 → armedOk (run w0 evs)).
  { induction evs as [|ev evs IH]; intros w0 Hwf Hok; [done|].
    simpl. apply IH; [by apply wf_exec | by apply armedOk_exec]. }
  apply Hgen; [apply wf_initial | by apply armedOk_no_timers].
Qed.

End Ownership.

(** X4: timers and registered events stay paired. In any state the page
    can reach, every live timer is recorded as the handle of exactly one
    registered event, runs that event's callback and was armed for that
    event's current remaining delay; every handle recorded in a registered
    event is live; and the registered events hold a timer exactly when the
    page is not paused (while paused no timer is live at all). *)
Theorem timers_match_registry (w : World) :
  reachable w →
  (∀ h t, hostTimers w !! h = Some t →
     ∃ e, e ∈ scheduledEvents w ∧ timer e = Some h
       ∧ t = mkHostTimer (ref e) (callback e) (remainingDelay e))
  ∧ (∀ e h, e ∈ scheduledEvents w → timer e = Some h →
       hostTimers w !! h
       = Some (mkHostTimer (ref e) (callback e) (remainingDelay e)))
  ∧ (∀ e1 e2 h, e1 ∈ scheduledEvents w → e2 ∈ scheduledEvents w →
       timer e1 = Some h → timer e2 = Some h → e1 = e2)
  ∧ (status w = paused →
       hostTimers w = ∅ ∧ ∀ e, e ∈ scheduledEvents w → timer e = None)
  ∧ (status w ≠ paused → ∀ e, e ∈ scheduledEvents w → is_Some (timer e)).
Proof.
  intros Hreach. pose proof (reachable_wf w Hreach) as Hwf.
  pose proof (reachable_armedOk w Hreach) as Hok.
  assert (Hlive : ∀ e h, e ∈ scheduledEvents w → timer e = Some h →
            hostTimers w !! h
            = Some (mkHostTimer (ref e) (callback e) (remainingDelay e))).
  { intros e h He Ht. destruct (wf_armed_live w Hwf e h He Ht) as (t & Hl & _).
    by rewrite Hl, (Hok h t e Hl He Ht). }
  split_and!.
  - intros h t Hl. destruct (wf_live_owned w Hwf h t Hl) as (e & He & _ & Ht).
    exists e. split_and!; [done..|]. by eapply Hok.
  - exact Hlive.
  - intros e1 e2 h He1 He2 Ht1 Ht2.
    pose proof (Hlive e1 h He1 Ht1) as Hl1. rewrite (Hlive e2 h He2 Ht2) in Hl1.
    injection Hl1 as Hr _ _.
    by apply (NoDup_fmap_eq ref (scheduledEvents w)); [apply Hwf|..].
  - intros Hst. split; [by apply paused_no_live_timer | by apply Hwf].
  - by apply Hwf.
Qed.

Lemma timers_match_registry_witness :
  hostTimers runningAt1700Paused = ∅
  ∧ Forall (λ e, timer e = None) (scheduledEvents runningAt1700Paused).
Proof.
  assert (Hreach : reachable runningAt1700Paused)
    by (by exists 1000, [ClickRun; Tick 700; ClickPauseResume]).
  assert (Hst : status runningAt1700Paused = paused) by (vm_compute; reflexivity).
  destruct (timers_match_registry runningAt1700Paused Hreach) as (_ & _ & _ & H4 & _).
  destruct (H4 Hst) as [H5 H6]. split; [exact H5 | by apply Forall_forall].
Defined.

(* ===================================================================== *)
(** ** A timer fires once                                                 *)
(* ===================================================================== *)

Lemma runCallback_registry (cb : Callback) (w : World) :
  scheduledEvents (runCallback cb w)
  = scheduledEvents w
    ++ (if decide (cb = cb_createPromise)
        then [mkScheduledEvent (nextRef w) cb_promiseToMicrotask 200
                (Some (nextHandle w)) (Some (clock w))]
        else []).
Proof. destruct cb; simpl; by rewrite ?app_nil_r. Qed.

Lemma runCallback_hostTimers (cb : Callback) (w : World) (h : handle) :
  h ≠ nextHandle w → hostTimers (runCallback cb w) !! h = hostTimers w !! h.
Proof.
  intros Hh. destruct cb; try done. simpl. by rewrite lookup_insert_ne.
Qed.

Lemma runCallback_output (cb : Callback) (w : World) :
  ∃ line, output (runCallback cb w) = output w ++ [line].
Proof. destruct cb; simpl; by eexists. Qed.

Lemma length_filter_unique {A B} `{EqDecision B} (f : A → B) (l : list A) (x : A) :
  NoDup (f <$> l) → x ∈ l →
  (length (filter (λ y, f y ≠ f x) l) + 1 = length l)%nat.
Proof.
  induction l as [|a l IH]; intros Hnd Hx.
  - by apply not_elem_of_nil in Hx.
  - rewrite fmap_cons in Hnd. apply NoDup_cons in Hnd as [Hna Hnd].
    apply elem_of_cons in Hx as [-> | Hx].
    + rewrite filter_cons_False by (intros Hne; by apply Hne).
      rewrite filter_all_keep; [simpl; lia|].
      apply Forall_forall. intros y Hy Heq. apply Hna. rewrite <- Heq.
      by apply list_elem_of_fmap_2.
    + rewrite filter_cons_True.
      * simpl. specialize (IH Hnd Hx). lia.
      * intros Heq. apply Hna. rewrite Heq. by apply list_elem_of_fmap_2.
Qed.

(** X5: a scheduled action runs once. When a live timer fires in a state
    the page can reach, its handle is no longer live afterwards (firing it
    again does nothing), its event, and only its event, leaves the registry,
    the other events stay as they were and in the same order, followed by
    the one new event when the callback that ran was the promise one, and
    the output log gains exactly one line. *)
Theorem fire_runs_once (w : World) (h : handle) (t : HostTimer) :
  reachable w →
  hostTimers w !! h = Some t →
  hostTimers (fire h w) !! h = None
  ∧ fire h (fire h w) = fire h w
  ∧ (∀ e, e ∈ scheduledEvents (fire h w) → ref e ≠ target t)
  ∧ scheduledEvents (fire h w)
    = filter (λ e, ref e ≠ target t) (scheduledEvents w)
      ++ (if decide (fires t = cb_createPromise)
          then [mkScheduledEvent (nextRef w) cb_promiseToMicrotask 200
                  (Some (nextHandle w)) (Some (clock w))]
          else [])
  ∧ (length (filter (λ e, ref e ≠ target t) (scheduledEvents w)) + 1
     = length (scheduledEvents w))%nat
  ∧ ∃ line, output (fire h w) = output w ++ [line].
Proof.
  intros Hreach Hl. pose proof (reachable_wf w Hreach) as Hwf.
  destruct (wf_live_owned w Hwf h t Hl) as (e0 & He0 & Hr0 & Ht0).
  pose proof (wf_live_fresh w Hwf h t Hl) as Hfresh.
  pose proof (wf_refs_fresh w Hwf e0 He0) as Hrfresh.
  assert (Hdead : hostTimers (fire h w) !! h = None).
  { unfold fire. rewrite Hl.
    change (hostTimers (set_scheduledEvents ?l ?w0)) with (hostTimers w0).
    rewrite runCallback_hostTimers; [|simpl; lia].
    simpl. by rewrite lookup_delete_eq. }
  assert (Hreg : scheduledEvents (fire h w)
            = filter (λ e, ref e ≠ target t) (scheduledEvents w)
              ++ (if decide (fires t = cb_createPromise)
                  then [mkScheduledEvent (nextRef w) cb_promiseToMicrotask 200
                          (Some (nextHandle w)) (Some (clock w))]
                  else [])).
  { unfold fire. rewrite Hl.
    change (scheduledEvents (set_scheduledEvents ?l ?w0)) with l.
    rewrite runCallback_registry, filter_app. f_equal.
    destruct (decide (fires t = cb_createPromise)); [|done].
    rewrite filter_cons_True, filter_nil; [done|]. simpl. lia. }
  split_and!.
  - exact Hdead.
  - generalize dependent (fire h w). intros w' Hdead _. unfold fire. by rewrite Hdead.
  - intros e He. rewrite Hreg in He. apply elem_of_app in He as [He | He].
    + by apply list_elem_of_filter in He as [Hne _].
    + destruct (decide (fires t = cb_createPromise));
        [|by apply not_elem_of_nil in He].
      apply list_elem_of_singleton in He. subst e. simpl. lia.
  - exact Hreg.
  - rewrite <- Hr0. apply length_filter_unique; [apply Hwf | done].
  - unfold fire. rewrite Hl.
    change (output (set_scheduledEvents ?l ?w0)) with (output w0).
    apply (runCallback_output (fires t) (clearTimeout h w)).
Qed.

Lemma fire_runs_once_witness :
  hostTimers (fire 1%positive Samples.started) !! 1%positive = None
  ∧ fire 1%positive (fire 1%positive Samples.started)
    = fire 1%positive Samples.started.
Proof.
  assert (Hreach : reachable Samples.started) by (by exists 1000, [ClickRun]).
  assert (Hl : hostTimers Samples.started !! 1%positive
               = Some (mkHostTimer 0 cb_startImageLoad 500))
    by (vm_compute; reflexivity).
  destruct (fire_runs_once Samples.started 1%positive _ Hreach Hl) as (H1 & H2 & _).
  split; [exact H1 | exact H2].
Defined.

(* ===================================================================== *)
(** ** Reset and Run, composed                                            *)
(* ===================================================================== *)

Lemma reset_eq (w : World) :
  reset w
  = mkWorld [] [] [] [] [] idle (uniqueId w) []
      (cancelled (hostTimers w) (scheduledEvents w))
      (nextHandle w) (nextRef w) (clock w).
Proof. unfold reset. by rewrite foldl_cancelEvent. Qed.

Lemma reset_reset (w : World) : reset (reset w) = reset w.
Proof. rewrite (reset_eq (reset w)). by rewrite !reset_eq. Qed.

(** X9: [reset] is idempotent and is absorbed by a run: a click on Reset
    followed by a click on Run gives exactly the state that
    [simulateEventLoop] gives on its own, whatever the state before; when
    the Run button is enabled, that is the state a single click on Run
    gives. *)
Theorem reset_then_run (w : World) :
  reset (reset w) = reset w
  ∧ simulateEventLoop (reset w) = simulateEventLoop w
  ∧ exec (exec w ClickReset) ClickRun = simulateEventLoop w
  ∧ (runDisabled w = false → exec (exec w ClickReset) ClickRun = exec w ClickRun).
Proof.
  assert (Hsim : simulateEventLoop (reset w) = simulateEventLoop w).
  { rewrite (simulateEventLoop_unfold (reset w)), (simulateEventLoop_unfold w).
    by rewrite reset_reset. }
  assert (Hrun : exec (exec w ClickReset) ClickRun = simulateEventLoop w).
  { unfold exec at 2. unfold exec, runDisabled.
    destruct (reset_fields w) as (-> & _). simpl. exact Hsim. }
  split_and!; [apply reset_reset | exact Hsim | exact Hrun |].
  intros Hen. rewrite Hrun. unfold exec.
  destruct (runDisabled w); [discriminate | reflexivity].
Qed.

(** A page that was just reset, as a record: without a click on Run only
    its clock moves. *)
Lemma quiet_after_reset_gen (nh : positive) (nr : nat) (u : Z) (evs : list Event) :
  ClickRun ∉ evs →
  ∀ c, ∃ c', (steadyClock evs → c ≤ c')
    ∧ run (mkWorld [] [] [] [] [] idle u [] ∅ nh nr c) evs
      = mkWorld [] [] [] [] [] idle u [] ∅ nh nr c'.
Proof.
  induction evs as [|ev evs IH]; intros Hno c.
  - exists c. split; [lia|done].
  - apply not_elem_of_cons in Hno as [Hne Hno]. specialize (IH Hno).
    assert (Hsame : ∃ c', (steadyClock (ev :: evs) → c ≤ c')
              ∧ run (mkWorld [] [] [] [] [] idle u [] ∅ nh nr c) evs
                = mkWorld [] [] [] [] [] idle u [] ∅ nh nr c').
    { destruct (IH c) as (c' & Hle & Hrun). exists c'. split; [|done].
      intros Hsteady. apply Hle. intros d Hin. apply (Hsteady d).
      apply elem_of_cons. by right. }
    destruct ev as [| | |h|d|d]; simpl.
    + done.
    + exact Hsame.
    + rewrite reset_eq. simpl. exact Hsame.
    + unfold fire. simpl. rewrite lookup_empty. exact Hsame.
    + destruct (IH (c + Z.of_N d)) as (c' & Hle & Hrun).
      exists c'. split; [|exact Hrun]. intros Hsteady.
      assert (c + Z.of_N d ≤ c'); [|lia].
      apply Hle. intros d' Hin. apply (Hsteady d'). apply elem_of_cons. by right.
    + destruct (IH (c - Z.of_N d)) as (c' & Hle & Hrun).
      exists c'. split; [|exact Hrun]. intros Hsteady.
      destruct (Hsteady d). apply elem_of_cons. by left.
Qed.

(** X10: a reset is final until the next run. From any state the page can
    reach, after [reset] and any sequence of events that contains no click
    on Run (clicks on Pause/Resume and Reset, any timer handle firing, time
    passing, the clock being set back), the state is the one [reset] left,
    up to the clock: no action scheduled before the reset ever runs. *)
Theorem quiet_after_reset (w : World) (evs : list Event) :
  reachable w →
  ClickRun ∉ evs →
  ∃ c, (steadyClock evs → clock w ≤ c)
    ∧ run (reset w) evs = set_clock c (reset w).
Proof.
  intros Hreach Hno. apply reachable_wf in Hreach.
  rewrite reset_eq, (cancelled_owned_empty w Hreach).
  destruct (quiet_after_reset_gen (nextHandle w) (nextRef w) (uniqueId w) evs
              Hno (clock w)) as (c' & Hle & Hrun).
  exists c'. split; [done|]. rewrite Hrun. done.
Qed.

Lemma quiet_after_reset_witness :
  ∃ c, (steadyClock [Fire 1%positive; ClickPauseResume; Tick 500; Fire 2%positive]
        → clock runningAt1700 ≤ c)
    ∧ run (reset runningAt1700)
        [Fire 1%positive; ClickPauseResume; Tick 500; Fire 2%positive]
      = set_clock c (reset runningAt1700).
Proof.
  assert (Hreach : reachable runningAt1700)
    by (by exists 1000, [ClickRun; Tick 700]).
  apply (quiet_after_reset runningAt1700 _ Hreach).
  intros Hin. repeat (apply elem_of_cons in Hin as [Hin | Hin]; [discriminate|]).
  by apply not_elem_of_nil in Hin.
Defined.

(* ===================================================================== *)
(** ** What a run starts from                                             *)
(* ===================================================================== *)

Lemma scheduleAll_registry (prog : list (Callback * Z)) (w : World) :
  (λ e, (callback e, remainingDelay e)) <$> scheduledEvents (scheduleAll prog w)
  = ((λ e, (callback e, remainingDelay e)) <$> scheduledEvents w) ++ prog.
Proof.
  revert w. induction prog as [|p prog IH]; intros w.
  - simpl. by rewrite app_nil_r.
  - simpl. rewrite IH.
    destruct (scheduleEvent_fields p.1 p.2 w) as (-> & _).
    rewrite fmap_app, <- app_assoc. simpl. by destruct p.
Qed.

Lemma scheduleAll_size (prog : list (Callback * Z)) (w : World) :
  Forall (λ p, 0 ≤ p.2) prog → wf w → status w ≠ paused →
  size (hostTimers (scheduleAll prog w)) = (size (hostTimers w) + length prog)%nat.
Proof.
  intros Hprog. revert w.
  induction Hprog as [|p prog Hp _ IH]; intros w Hwf Hst; [simpl; lia|].
  simpl. rewrite IH; [|by apply wf_scheduleEvent|done].
  destruct (scheduleEvent_fields p.1 p.2 w) as (_ & -> & _).
  rewrite map_size_insert_None; [lia|].
  destruct (hostTimers w !! nextHandle w) as [t|] eqn:Hl; [|done].
  pose proof (wf_live_fresh w Hwf _ t Hl). lia.
Qed.

(** X6: a run starts from a clean slate. In whatever reachable state
    [simulateEventLoop] is called, it leaves the status running, the call
    stack holding the single frame main() (under the counter's value plus
    one), the other three containers empty, the log holding its first line
    only, the counter advanced by two, and the registry holding exactly the
    events of the program, in order, with their delays, all armed at the
    current time; the live timers are exactly as many as these events. *)
Theorem run_starts_clean (w : World) :
  reachable w →
  status (simulateEventLoop w) = running
  ∧ callStack (simulateEventLoop w)
    = [mkQueueItem (uniqueId w + 1) (Some "main()") (Some ty_DOM) (Some 0)]
  ∧ webAPI (simulateEventLoop w) = []
  ∧ microTaskQueue (simulateEventLoop w) = []
  ∧ callbackQueue (simulateEventLoop w) = []
  ∧ output (simulateEventLoop w) = ["1. Starting main execution"]
  ∧ uniqueId (simulateEventLoop w) = uniqueId w + 2
  ∧ (λ e, (callback e, remainingDelay e)) <$> scheduledEvents (simulateEventLoop w)
    = program
  ∧ Forall (λ e, startTime e = Some (clock w) ∧ is_Some (timer e))
      (scheduledEvents (simulateEventLoop w))
  ∧ size (hostTimers (simulateEventLoop w)) = length program.
Proof.
  intros Hreach. apply reachable_wf in Hreach.
  destruct (wf_simulateEventLoop w Hreach) as [Hwf' Hst'].
  pose proof (simulateEventLoop_callStack w) as Hcs.
  pose proof (wf_not_paused _ Hwf') as Harmed.
  rewrite simulateEventLoop_unfold in *.
  destruct (reset_fields w) as (_ & _ & Ho & Hev & Hht & Hid & _ & _ & Hck).
  destruct (reset_containers w) as (_ & Hc2 & Hc3 & Hc4).
  rewrite (cancelled_owned_empty w Hreach) in Hht.
  clear Hwf'. generalize dependent (reset w).
  intros w0 Hst' Hcs Harmed Ho Hev Hht Hid Hck Hc2 Hc3 Hc4.
  destruct (scheduleAll_frame program (startMain w0))
    as (_ & Hf2 & Hf3 & Hf4 & Hf5 & Hf6).
  destruct (scheduleAll_events program (startMain w0) program_delays)
    as (_ & _ & Hfresh).
  assert (Hwf0 : wf (startMain w0)) by (by apply wf_no_events).
  split_and!.
  - exact Hst'.
  - exact Hcs.
  - by rewrite Hf2.
  - by rewrite Hf3.
  - by rewrite Hf4.
  - rewrite Hf6. simpl. by rewrite Ho.
  - rewrite Hf5. simpl. lia.
  - rewrite scheduleAll_registry.
    change (scheduledEvents (startMain w0)) with (scheduledEvents w0).
    by rewrite Hev.
  - apply Forall_forall. intros e He. split.
    + destruct (Hfresh e He) as [Hold | (_ & _ & Hs)].
      * change (scheduledEvents (startMain w0)) with (scheduledEvents w0) in Hold.
        rewrite Hev in Hold. by apply not_elem_of_nil in Hold.
      * change (clock (startMain w0)) with (clock w0) in Hs. by rewrite Hs, Hck.
    + apply Harmed; [|done]. rewrite Hst'. discriminate.
  - rewrite scheduleAll_size; [|apply program_delays|done|done].
    change (hostTimers (startMain w0)) with (hostTimers w0).
    by rewrite Hht, map_size_empty.
Qed.

Lemma run_starts_clean_witness :
  status (simulateEventLoop runningAt1700Paused) = running
  ∧ size (hostTimers (simulateEventLoop runningAt1700Paused)) = length program.
Proof.
  assert (Hreach : reachable runningAt1700Paused)
    by (by exists 1000, [ClickRun; Tick 700; ClickPauseResume]).
  destruct (run_starts_clean runningAt1700Paused Hreach)
    as (H1 & _ & _ & _ & _ & _ & _ & _ & _ & H10).
  split; [exact H1 | exact H10].
Defined.

(* ===================================================================== *)
(** ** A pause shifts the due times                                       *)
(* ===================================================================== *)

Lemma exec_pause (w : World) :
  status w = running → exec w ClickPauseResume = pauseExecution w.
Proof. intros Hst. unfold exec, pauseResumeDisabled. by rewrite Hst. Qed.

Lemma exec_resume (w : World) :
  status w = paused → exec w ClickPauseResume = resumeExecution w.
Proof. intros Hst. unfold exec, pauseResumeDisabled. by rewrite Hst. Qed.

(** X7: pausing neither loses nor gains time. Take a running state the
    page can reach and a registered event armed at a non-zero time [s] with
    remaining delay [d], so due at [s + d]. After a pause, a wait of [dt]
    and a resume, the event is in the same place in the registry, armed at
    the time of the resume for max(0, d - elapsed), under a live timer set
    for that delay and running the same callback: it is now due at
    [s + d + dt], or at the time of the resume if it was already overdue
    when the page was paused. *)
Theorem pause_shifts_due_time
    (w : World) (i : nat) (e : ScheduledEvent) (s : Z) (dt : N) :
  reachable w →
  status w = running →
  scheduledEvents w !! i = Some e →
  startTime e = Some s →
  s ≠ 0 →
  ∃ e' h',
    scheduledEvents (run w [ClickPauseResume; Tick dt; ClickPauseResume]) !! i
    = Some e'
    ∧ ref e' = ref e ∧ callback e' = callback e
    ∧ startTime e' = Some (clock w + Z.of_N dt)
    ∧ remainingDelay e' = Z.max 0 (remainingDelay e - (clock w - s))
    ∧ timer e' = Some h'
    ∧ hostTimers (run w [ClickPauseResume; Tick dt; ClickPauseResume]) !! h'
      = Some (mkHostTimer (ref e) (callback e) (remainingDelay e'))
    ∧ (clock w + Z.of_N dt) + remainingDelay e'
      = Z.max (clock w + Z.of_N dt) (s + remainingDelay e + Z.of_N dt).
Proof.
  intros Hreach Hst Hi Hs Hs0.
  pose proof (reachable_wf w Hreach) as Hwf.
  assert (He : e ∈ scheduledEvents w) by (by eapply list_elem_of_lookup_2).
  destruct (wf_not_paused w Hwf ltac:(congruence) e He) as [h Ht].
  change (run w [ClickPauseResume; Tick dt; ClickPauseResume])
    with (exec (exec (exec w ClickPauseResume) (Tick dt)) ClickPauseResume).
  rewrite (exec_pause w Hst).
  pose proof (wf_pauseExecution w Hwf) as Hwf1.
  destruct (pauseExecution_fields w Hst)
    as (Hs1 & Hev1 & _ & _ & _ & _ & _ & _ & Hck1).
  generalize dependent (pauseExecution w). intros w1 Hwf1 Hs1 Hev1 Hck1.
  pose proof (wf_exec w1 (Tick dt) Hwf1) as Hwf2.
  assert (Hs2 : status (exec w1 (Tick dt)) = paused) by exact Hs1.
  assert (Hev2 : scheduledEvents (exec w1 (Tick dt)) = scheduledEvents w1) by done.
  assert (Hck2 : clock (exec w1 (Tick dt)) = clock w + Z.of_N dt).
  { simpl. by rewrite Hck1. }
  generalize dependent (exec w1 (Tick dt)). intros w2 Hwf2 Hs2 Hev2 Hck2.
  rewrite (exec_resume w2 Hs2).
  destruct (resumeExecution_fields w2 Hs2 (wf_live_fresh w2 Hwf2))
    as (_ & _ & _ & _ & _ & _ & _ & Hall & _).
  generalize dependent (resumeExecution w2). intros w3 Hall.
  rewrite Hev2, Hev1 in Hall.
  assert (Hi1 : (pauseEvent (clock w) <$> scheduledEvents w) !! i
                = Some (pauseEvent (clock w) e)).
  { by rewrite list_lookup_fmap, Hi. }
  destruct (Forall2_lookup_l _ _ _ _ _ Hall Hi1) as (e' & Hi3 & HP).
  destruct (pauseEvent_fields (clock w) e) as (Hr & Hc & Htn & _).
  unfold rearmed in HP. rewrite Htn, Hr, Hc, Hck2 in HP.
  destruct HP as (h' & -> & _ & Hl).
  assert (Hd : remainingDelay (pauseEvent (clock w) e)
               = Z.max 0 (remainingDelay e - (clock w - s))).
  { unfold pauseEvent. rewrite Ht, Hs. simpl.
    destruct (s =? 0) eqn:Hz; [lia|done]. }
  rewrite Hd in Hl, Hi3.
  eexists _, h'. split; [exact Hi3|]. simpl. split_and!; try done. lia.
Qed.

Lemma pause_shifts_due_time_witness :
  ∃ e' h',
    scheduledEvents (run runningAt1700 [ClickPauseResume; Tick 300; ClickPauseResume])
      !! 1%nat = Some e'
    ∧ ref e' = 1%nat ∧ callback e' = cb_imageToWebAPI
    ∧ startTime e' = Some (clock runningAt1700 + 300)
    ∧ remainingDelay e' = Z.max 0 (1000 - (clock runningAt1700 - 1000))
    ∧ timer e' = Some h'.
Proof.
  assert (Hreach : reachable runningAt1700)
    by (by exists 1000, [ClickRun; Tick 700]).
  assert (Hst : status runningAt1700 = running) by (vm_compute; reflexivity).
  assert (Hi : scheduledEvents runningAt1700 !! 1%nat
               = Some (mkScheduledEvent 1 cb_imageToWebAPI 1000 (Some 2%positive)
                         (Some 1000)))
    by (vm_compute; reflexivity).
  destruct (pause_shifts_due_time runningAt1700 1 _ 1000 300 Hreach Hst Hi eq_refl
              ltac:(lia))
    as (e' & h' & H1 & H2 & H3 & H4 & H5 & H6 & _).
  exists e', h'. split_and!; [exact H1 | exact H2 | exact H3 | exact H4 | exact H5 | exact H6].
Defined.

(* ===================================================================== *)
(** ** Completions, the output log, colours                               *)
(* ===================================================================== *)

(** X8: a completion removes every pending operation of its kind. For any
    state, [webAPI.filter(item => item.type !== kind)] keeps exactly the
    items of another kind (or of no kind), in their order; the closure of
    log line 8 leaves no database item among the pending operations, keeps
    the others, appends one fresh database item at the tail of the callback
    queue and leaves the call stack and the microtask queue alone (and
    likewise the closure of log line 9 for image loads). *)
Theorem completion_clears_kind (w : World) (ty : EventType) :
  (∀ item, item ∈ webAPI (removeWebAPIByType ty w)
           ↔ item ∈ webAPI w ∧ type item ≠ Some ty)
  ∧ webAPI (removeWebAPIByType ty w) `sublist_of` webAPI w
  ∧ (∀ item, item ∈ webAPI (runCallback cb_dbComplete w)
             ↔ item ∈ webAPI w ∧ type item ≠ Some ty_database)
  ∧ (∀ item, item ∈ webAPI (runCallback cb_imageComplete w)
             ↔ item ∈ webAPI w ∧ type item ≠ Some ty_imageLoad)
  ∧ callbackQueue (runCallback cb_dbComplete w)
    = callbackQueue w
      ++ [mkQueueItem (uniqueId w) (Some "Database callback") (Some ty_database) (Some 0)]
  ∧ callbackQueue (runCallback cb_imageComplete w)
    = callbackQueue w
      ++ [mkQueueItem (uniqueId w) (Some "Image load callback") (Some ty_imageLoad) (Some 0)]
  ∧ callStack (runCallback cb_dbComplete w) = callStack w
  ∧ microTaskQueue (runCallback cb_dbComplete w) = microTaskQueue w.
Proof.
  assert (Hfilter : ∀ ty' item,
            item ∈ filter (λ it, type it ≠ Some ty') (webAPI w)
            ↔ item ∈ webAPI w ∧ type item ≠ Some ty').
  { intros ty' item. rewrite list_elem_of_filter. tauto. }
  split_and!; try done.
  - apply Hfilter.
  - simpl. apply sublist_filter.
  - apply Hfilter.
  - apply Hfilter.
Qed.

(** X11: the output log only grows while a simulation is under way. Every
    event other than a click on Reset or an accepted click on Run leaves
    the lines already logged in place and adds at most one line at the
    end. *)
Theorem output_append_only (w : World) (ev : Event) :
  ev ≠ ClickReset →
  (ev = ClickRun → runDisabled w = true) →
  ∃ lines, output (exec w ev) = output w ++ lines ∧ (length lines ≤ 1)%nat.
Proof.
  intros Hnr Hrun.
  assert (Hsame : ∃ lines, output w = output w ++ lines ∧ (length lines ≤ 1)%nat).
  { exists []. rewrite app_nil_r. split; [done|simpl; lia]. }
  destruct ev as [| | |h|d|d]; unfold exec.
  - by rewrite Hrun.
  - destruct (pauseResumeDisabled w); [done|].
    destruct (decide (status w = paused)) as [Hp|Hp].
    + unfold resumeExecution.
      destruct (decide (status w ≠ paused)) as [Hne|_]; [done|].
      destruct (foldl_resumeEvent_shape (set_status running w) (scheduledEvents w))
        as (m' & nh' & l' & Hfold & _).
      simpl in *. rewrite Hfold. simpl. by eexists [_].
    + destruct (decide (status w = running)) as [Hr|Hr];
        [|by rewrite pauseExecution_not_running].
      destruct (pauseExecution_fields w Hr) as (_ & _ & _ & -> & _).
      by eexists [_].
  - done.
  - unfold fire. destruct (hostTimers w !! h) as [t|]; [|done].
    change (output (set_scheduledEvents ?l ?w0)) with (output w0).
    destruct (runCallback_output (fires t) (clearTimeout h w)) as (line & ->).
    by exists [line].
  - done.
  - done.
Qed.

Lemma output_append_only_witness :
  ∃ lines,
    output (exec Samples.started (Fire 1%positive))
    = output Samples.started ++ lines
    ∧ (length lines ≤ 1)%nat.
Proof.
  apply (output_append_only Samples.started (Fire 1%positive)); discriminate.
Defined.

(** X12: [getEventColor] gives each of the seven event types a background
    class of its own, never the fallback class; the fallback "bg-white" is
    what an item without a type gets (the blank call-stack entry), and only
    such an item. *)
Theorem getEventColor_distinct :
  (∀ ty, getEventColor (Some ty) ≠ "bg-white")
  ∧ getEventColor None = "bg-white"
  ∧ (∀ t1 t2, getEventColor t1 = getEventColor t2 → t1 = t2)
  ∧ (∀ item n, getEventColor (type (spreadWithId None n)) = "bg-white"
               ∧ getEventColor (type (spreadWithId (Some item) n))
                 = getEventColor (type item)).
Proof.
  split_and!.
  - intros []; vm_compute; discriminate.
  - reflexivity.
  - intros [[]|] [[]|]; vm_compute; intros H; try reflexivity; discriminate H.
  - intros item n. split; reflexivity.
Qed.

(** X13: [addToCallStack] always adds exactly one entry at the tail of the
    call stack, under the current value of the id counter, which it then
    advances by one, whatever it is given: the entry repeats the text, type
    and duration of the item, and is blank when there is no item. So the
    closure of log line 10, run on an empty microtask queue, leaves that
    queue empty and still pushes a blank entry. *)
Theorem addToCallStack_always_pushes (w : World) (o : option QueueItem) :
  callStack (addToCallStack o w)
  = callStack w
    ++ [mkQueueItem (uniqueId w) (o ≫= text) (o ≫= type) (o ≫= duration)]
  ∧ uniqueId (addToCallStack o w) = uniqueId w + 1
  ∧ webAPI (addToCallStack o w) = webAPI w
  ∧ microTaskQueue (addToCallStack o w) = microTaskQueue w
  ∧ callbackQueue (addToCallStack o w) = callbackQueue w
  ∧ (microTaskQueue w = [] →
     microTaskQueue (runCallback cb_processMicrotask w) = []
     ∧ callStack (runCallback cb_processMicrotask w)
       = callStack w ++ [mkQueueItem (uniqueId w) None None None]).
Proof.
  split_and!; try done.
  - by destruct o.
  - intros Hq. simpl. unfold drainMicrotasks. by rewrite Hq.
Qed.

Lemma addToCallStack_always_pushes_witness :
  callStack (runCallback cb_processMicrotask Samples.started)
  = callStack Samples.started
    ++ [mkQueueItem (uniqueId Samples.started) None None None].
Proof.
  assert (Hq : microTaskQueue Samples.started = []) by (vm_compute; reflexivity).
  destruct (addToCallStack_always_pushes Samples.started None)
    as (_ & _ & _ & _ & _ & H6).
  exact (proj2 (H6 Hq)).
Defined.
